(** * scripts/llm.py: batch classification of CSV rows through a remote model

    A shallow embedding of [process_text] (the classifier client) and
    [process_csv] (the batch runner) of [scripts/llm.py], and the properties
    of the request/retry/parse protocol and of the batch loop.

    Conventions of the embedding:
    - a Python [str] is a list of Unicode code points;
    - a Python object is a [value]; a [dict] keeps its insertion order;
    - a raised exception is the left injection of a sum, a returned value the
      right one;
    - the remote service is a script: the outcomes of the successive calls of
      [requests.post], in the order in which the calls are made;
    - what the program prints, the requests it sends and the time it sleeps
      are recorded as a list of events;
    - the standard output and the output file encode as UTF-8 with strict
      errors: printing or writing a [str] that holds a surrogate raises
      [UnicodeEncodeError]. *)

From Stdlib Require Import Strings.String Strings.Ascii.
From Stdlib Require Import List Bool NArith ZArith Lia.
Import ListNotations.

Set Implicit Arguments.

(** ** Python strings *)

Module Str.

Local Open Scope N_scope.

Definition char := N.
Definition str := list char.

(** The text of a literal of this file, one code point per character. *)
Definition lit (s : String.string) : str :=
  map Ascii.N_of_ascii (String.list_ascii_of_string s).

(** The same, where every apostrophe of the literal stands for a double
    quote (code point 34): JSON texts are written with it. *)
Definition dq (s : String.string) : str :=
  map (fun c => if c =? 39 then 34 else c) (lit s).

Arguments lit s%_string.
Arguments dq s%_string.

Fixpoint str_eqb (a b : str) : bool :=
  match a, b with
  | [], [] => true
  | x :: a', y :: b' => N.eqb x y && str_eqb a' b'
  | _, _ => false
  end.

(** [s.startswith(p)] *)
Fixpoint startswith (p s : str) : bool :=
  match p, s with
  | [], _ => true
  | _ :: _, [] => false
  | x :: p', y :: s' => N.eqb x y && startswith p' s'
  end.

(** [sub in s] on strings: [sub] occurs in [s]. *)
Fixpoint str_in (sub s : str) : bool :=
  startswith sub s ||
  match s with
  | [] => false
  | _ :: s' => str_in sub s'
  end.

(** [s.partition(sep)] when [sep] occurs: the text before the first
    occurrence of [sep] (scanning from the left) and the text after it. *)
Fixpoint find (sep s : str) : option (str * str) :=
  if startswith sep s then Some ([], skipn (length sep) s)
  else match s with
       | [] => None
       | x :: s' =>
           match find sep s' with
           | Some (a, b) => Some (x :: a, b)
           | None => None
           end
       end.

(** [s.split(sep)] for a non-empty [sep] (every separator of the program is
    a non-empty constant): the pieces between the successive occurrences of
    [sep], found from the left and not overlapping.  The recursion is on the
    text after an occurrence, which is shorter than the text itself, so the
    length of the text bounds the number of steps. *)
Fixpoint split_upto (n : nat) (sep s : str) : list str :=
  match find sep s with
  | None => [s]
  | Some (a, b) =>
      match n with
      | O => [a]
      | S n' => a :: split_upto n' sep b
      end
  end.

Definition split (sep s : str) : list str := split_upto (length s) sep s.

(** [str.isspace] on one code point: the characters that [str.strip()]
    removes. *)
Definition isspace (c : char) : bool :=
  ((9 <=? c) && (c <=? 13)) || ((28 <=? c) && (c <=? 32))
  || (c =? 133) || (c =? 160) || (c =? 5760)
  || ((8192 <=? c) && (c <=? 8202))
  || (c =? 8232) || (c =? 8233) || (c =? 8239) || (c =? 8287)
  || (c =? 12288).

Fixpoint lstrip (s : str) : str :=
  match s with
  | [] => []
  | c :: s' => if isspace c then lstrip s' else s
  end.

Definition rstrip (s : str) : str := rev (lstrip (rev s)).

(** [s.strip()] *)
Definition strip (s : str) : str := lstrip (rstrip s).

(** The text before the first occurrence of [sep], the whole text when
    there is none; and the text after the first occurrence. *)
Definition upto (sep s : str) : str :=
  match find sep s with
  | Some (a, _) => a
  | None => s
  end.

Definition after (sep s : str) : str :=
  match find sep s with
  | Some (_, b) => b
  | None => []
  end.

End Str.
Import Str.

(** ** Python objects and exceptions *)

Module Py.

(** The objects the program handles: what [json.loads] builds, and the
    cells of a row of [csv.DictReader] ([str], or [None] for a cell that a
    short line leaves out).  A [float] is kept as the text of its literal. *)
#[warnings="-register-all"]
Inductive value :=
| VNone
| VBool (b : bool)
| VInt (z : Z)
| VFloat (lexeme : str)
| VStr (s : str)
| VList (l : list value)
| VDict (d : list (str * value)).

(** A [dict] with [str] keys, in insertion order. *)
Definition dict := list (str * value).

Fixpoint dict_get (d : dict) (k : str) : option value :=
  match d with
  | [] => None
  | (k', v) :: d' => if str_eqb k k' then Some v else dict_get d' k
  end.

(** [d[k] = v]: a key already present keeps its place and takes the new
    value. *)
Fixpoint dict_set (d : dict) (k : str) (v : value) : dict :=
  match d with
  | [] => [(k, v)]
  | (k', v') :: d' =>
      if str_eqb k k' then (k', v) :: d' else (k', v') :: dict_set d' k v
  end.

(** What [requests.post] returns. *)
Record response := {
  status_code : Z;
  reason : str;
  text : str
}.

(** The operation that a [TypeError] comes from. *)
Inductive pyop :=
| Subscript_str (key : str)
| Subscript_int (i : Z)
| Contains
| Loads.

(** The exceptions (all of them subclasses of [Exception]).
    [RequestError] is any exception other than [HTTPError] that
    [requests.post] raises: a refused connection, a timeout. *)
Inductive exn :=
| KeyError (key : value)
| IndexError (container : value)
| TypeError (op : pyop) (operand : value)
| AttributeError (obj : value) (attr : str)
| JSONDecodeError (doc : str)
| HTTPError (r : response)
| RequestError (detail : str)
| OSError (detail : str)
| UnicodeDecodeError (detail : str)
| UnicodeEncodeError (object : str).

(** A computation that returns or raises. *)
Definition res (A : Type) : Type := exn + A.

Definition ret {A} (a : A) : res A := inr a.
Definition raise {A} (e : exn) : res A := inl e.
Definition bind {A B} (m : res A) (k : A -> res B) : res B :=
  match m with
  | inl e => inl e
  | inr a => k a
  end.

(** [v['key']] *)
Definition getitem_str (v : value) (key : str) : res value :=
  match v with
  | VDict d =>
      match dict_get d key with
      | Some x => ret x
      | None => raise (KeyError (VStr key))
      end
  | _ => raise (TypeError (Subscript_str key) v)
  end.

(** [l[i]] on a sequence of length [length l]. *)
Definition seq_index {A} (l : list A) (i : Z) : option A :=
  let n := Z.of_nat (length l) in
  let j := if (i <? 0)%Z then (i + n)%Z else i in
  if ((0 <=? j) && (j <? n))%Z then nth_error l (Z.to_nat j) else None.

(** [v[i]] for an integer [i]; the keys of every [dict] here are [str]. *)
Definition getitem_int (v : value) (i : Z) : res value :=
  match v with
  | VDict _ => raise (KeyError (VInt i))
  | VList l =>
      match seq_index l i with
      | Some x => ret x
      | None => raise (IndexError v)
      end
  | VStr s =>
      match seq_index s i with
      | Some c => ret (VStr [c])
      | None => raise (IndexError v)
      end
  | _ => raise (TypeError (Subscript_int i) v)
  end.

Definition is_str (s : str) (v : value) : bool :=
  match v with
  | VStr s' => str_eqb s s'
  | _ => false
  end.

(** [sub in v] for a [str] [sub]. *)
Definition contains (sub : str) (v : value) : res bool :=
  match v with
  | VStr s => ret (str_in sub s)
  | VList l => ret (existsb (is_str sub) l)
  | VDict d => ret (existsb (fun kv => str_eqb sub (fst kv)) d)
  | _ => raise (TypeError Contains v)
  end.

(** [v.split(sep)]: only a [str] has the method. *)
Definition method_split (v : value) (sep : str) : res (list str) :=
  match v with
  | VStr s => ret (split sep s)
  | _ => raise (AttributeError v (lit "split"))
  end.

(** [parts[i]] on the list that [split] returns. *)
Definition index (parts : list str) (i : Z) : res str :=
  match seq_index parts i with
  | Some p => ret p
  | None => raise (IndexError (VList (map VStr parts)))
  end.

(** The code points that UTF-8 does not encode: the surrogates, U+D800 to
    U+DFFF. *)
Definition is_surrogate (c : char) : bool :=
  ((55296 <=? c) && (c <=? 57343))%N.

(** [s.encode('utf-8')], for what it raises. *)
Definition encode_utf8 (s : str) : res unit :=
  if existsb is_surrogate s then raise (UnicodeEncodeError s) else ret tt.

(** Writing the text of [v] to a stream that encodes as UTF-8 with strict
    errors: the text of a [str] is the [str] itself; the text of a number,
    of [None] and of a bool is ASCII; the text of a list and of a dict is
    made of the [repr] of what they hold, in which a surrogate is written
    as an escape. *)
Definition write_text (v : value) : res unit :=
  match v with
  | VStr s => encode_utf8 s
  | _ => ret tt
  end.

End Py.
Import Py.

Declare Scope py_scope.
Delimit Scope py_scope with py.
Notation "x <- m ;; k" := (bind m (fun x => k))
  (at level 61, m at next level, right associativity) : py_scope.
Local Open Scope py_scope.

(** ** [json.loads]

    The library's decoder, as a scanner that reads the text one code point
    at a time and a pushdown parser of the tokens.  It accepts what the
    decoder of CPython accepts with its default settings: the JSON grammar,
    the literals [NaN], [Infinity] and [-Infinity], strings without raw
    control characters, and pairs of [\u] escapes of surrogates joined into
    one code point.  An object becomes a [dict] in which a repeated key
    keeps its first place and its last value.  The limits that the
    interpreter sets (the depth of nesting, the number of digits of an
    integer) are left out. *)

Module Json.

Local Open Scope N_scope.

Inductive token :=
| TLBrace | TRBrace | TLBracket | TRBracket | TColon | TComma
| TStr (s : str)
| TAtom (v : value).

(** The state of the scanner.  Texts under construction are kept reversed.
    [LHi acc hi]: inside a string, just after a [\u] escape that gave the
    high surrogate [hi], not yet added to [acc]. *)
Inductive lstate :=
| LStart
| LStr (acc : str)
| LHi (acc : str) (hi : N)
| LEsc (acc : str) (hi : option N)
| LUni (acc : str) (hi : option N) (n : nat) (v : N)
| LNum (acc : str)
| LLit (rest : str) (v : value).

Definition is_ws (c : char) : bool :=
  (c =? 32) || (c =? 9) || (c =? 10) || (c =? 13).

Definition is_digit (c : char) : bool := (48 <=? c) && (c <=? 57).

Definition is_num_char (c : char) : bool :=
  is_digit c || (c =? 43) || (c =? 45) || (c =? 46) || (c =? 101) || (c =? 69).

Definition hexval (c : char) : option N :=
  if (48 <=? c) && (c <=? 57) then Some (c - 48)
  else if (65 <=? c) && (c <=? 70) then Some (c - 55)
  else if (97 <=? c) && (c <=? 102) then Some (c - 87)
  else None.

Definition simple_escape (c : char) : option char :=
  if c =? 34 then Some 34
  else if c =? 92 then Some 92
  else if c =? 47 then Some 47
  else if c =? 98 then Some 8
  else if c =? 102 then Some 12
  else if c =? 110 then Some 10
  else if c =? 114 then Some 13
  else if c =? 116 then Some 9
  else None.

Definition is_high (u : N) : bool := (55296 <=? u) && (u <=? 56319).
Definition is_low (u : N) : bool := (56320 <=? u) && (u <=? 57343).

Definition push (hi : option N) (acc : str) : str :=
  match hi with
  | Some h => h :: acc
  | None => acc
  end.

(** After an escape [\uXXXX] of value [u]. *)
Definition fresh (acc : str) (u : N) : lstate :=
  if is_high u then LHi acc u else LStr (u :: acc).

Definition after_unicode (acc : str) (hi : option N) (u : N) : lstate :=
  match hi with
  | Some h =>
      if is_low u
      then LStr (65536 + N.lor (N.shiftl (h - 55296) 10) (u - 56320) :: acc)
      else fresh (h :: acc) u
  | None => fresh acc u
  end.

Fixpoint span_digits (s : str) : str * str :=
  match s with
  | c :: s' =>
      if is_digit c
      then let (ds, r) := span_digits s' in (c :: ds, r)
      else ([], s)
  | [] => ([], [])
  end.

Definition digits_value (ds : str) : Z :=
  fold_left (fun a c => (10 * a + (Z.of_N c - 48))%Z) ds 0%Z.

Definition is_nil {A} (l : list A) : bool :=
  match l with [] => true | _ => false end.

(** The value of the text of a number: an optional minus sign, an integer
    part (a single zero, or digits that do not start with a zero), an
    optional fraction (a dot and digits), an optional exponent ([e] or [E],
    an optional sign, digits).  It is an [int] when it has neither fraction
    nor exponent, a [float] otherwise. *)
Definition number (s : str) : option value :=
  let '(neg, s1) :=
    match s with
    | 45 :: r => (true, r)
    | _ => (false, s)
    end in
  let '(ip, s2) := span_digits s1 in
  let int_ok :=
    match ip with
    | [] => false
    | [_] => true
    | d :: _ => negb (d =? 48)
    end in
  let '(frac_ok, has_frac, s3) :=
    match s2 with
    | 46 :: r => let '(fp, r') := span_digits r in (negb (is_nil fp), true, r')
    | _ => (true, false, s2)
    end in
  let '(exp_ok, has_exp, s4) :=
    match s3 with
    | c :: r =>
        if (c =? 101) || (c =? 69) then
          let r1 :=
            match r with
            | sg :: r0 => if (sg =? 43) || (sg =? 45) then r0 else r
            | [] => r
            end in
          let '(ep, r') := span_digits r1 in (negb (is_nil ep), true, r')
        else (true, false, s3)
    | [] => (true, false, s3)
    end in
  if int_ok && frac_ok && exp_ok && is_nil s4 then
    Some (if has_frac || has_exp then VFloat s
          else VInt (if neg then - digits_value ip else digits_value ip)%Z)
  else None.

(** One code point, between two tokens. *)
Definition start_char (c : char) : option (lstate * list token) :=
  if is_ws c then Some (LStart, [])
  else if c =? 123 then Some (LStart, [TLBrace])
  else if c =? 125 then Some (LStart, [TRBrace])
  else if c =? 91 then Some (LStart, [TLBracket])
  else if c =? 93 then Some (LStart, [TRBracket])
  else if c =? 58 then Some (LStart, [TColon])
  else if c =? 44 then Some (LStart, [TComma])
  else if c =? 34 then Some (LStr [], [])
  else if is_digit c || (c =? 45) then Some (LNum [c], [])
  else if c =? 110 then Some (LLit (lit "ull") VNone, [])
  else if c =? 116 then Some (LLit (lit "rue") (VBool true), [])
  else if c =? 102 then Some (LLit (lit "alse") (VBool false), [])
  else if c =? 78 then Some (LLit (lit "aN") (VFloat (lit "NaN")), [])
  else if c =? 73 then Some (LLit (lit "nfinity") (VFloat (lit "Infinity")), [])
  else None.

(** One code point, inside a string. *)
Definition str_char (acc : str) (c : char) : option (lstate * list token) :=
  if c =? 34 then Some (LStart, [TStr (rev acc)])
  else if c =? 92 then Some (LEsc acc None, [])
  else if c <? 32 then None
  else Some (LStr (c :: acc), []).

Definition step (st : lstate) (c : char) : option (lstate * list token) :=
  match st with
  | LStart => start_char c
  | LStr acc => str_char acc c
  | LHi acc hi =>
      if c =? 92 then Some (LEsc acc (Some hi), []) else str_char (hi :: acc) c
  | LEsc acc hi =>
      if c =? 117 then Some (LUni acc hi 0 0, [])
      else match simple_escape c with
           | Some d => Some (LStr (d :: push hi acc), [])
           | None => None
           end
  | LUni acc hi n v =>
      match hexval c with
      | Some d =>
          let v' := 16 * v + d in
          if Nat.eqb n 3 then Some (after_unicode acc hi v', [])
          else Some (LUni acc hi (S n) v', [])
      | None => None
      end
  | LNum acc =>
      if is_num_char c then Some (LNum (c :: acc), [])
      else if str_eqb acc [45] && (c =? 73)
      then Some (LLit (lit "nfinity") (VFloat (lit "-Infinity")), [])
      else match number (rev acc), start_char c with
           | Some v, Some (st', ts) => Some (st', TAtom v :: ts)
           | _, _ => None
           end
  | LLit rest v =>
      match rest with
      | x :: rest' =>
          if c =? x then
            if is_nil rest' then Some (LStart, [TAtom v])
            else Some (LLit rest' v, [])
          else None
      | [] => None
      end
  end.

(** The end of the text. *)
Definition finish (st : lstate) : option (list token) :=
  match st with
  | LStart => Some []
  | LNum acc =>
      match number (rev acc) with
      | Some v => Some [TAtom v]
      | None => None
      end
  | _ => None
  end.

Fixpoint scan (st : lstate) (s : str) : option (list token) :=
  match s with
  | [] => finish st
  | c :: s' =>
      match step st c with
      | Some (st', ts) =>
          match scan st' s' with
          | Some ts' => Some (ts ++ ts')
          | None => None
          end
      | None => None
      end
  end.

(** The containers that are open around the value being read: an array
    with its items so far (reversed), an object with its pairs so far and
    the key whose value is awaited. *)
Inductive frame :=
| FArr (items : list value)
| FObj (d : dict) (key : str).

Inductive pmode :=
| PValue
| PFirstItem
| PKey (d : dict) (first : bool)
| PColon (d : dict) (key : str)
| PNextItem (items : list value)
| PNextMember (d : dict)
| PDone (v : value).

Definition deliver (v : value) (stack : list frame) : pmode * list frame :=
  match stack with
  | [] => (PDone v, [])
  | FArr items :: st => (PNextItem (v :: items), st)
  | FObj d k :: st => (PNextMember (dict_set d k v), st)
  end.

Definition open_value (t : token) (stack : list frame)
  : option (pmode * list frame) :=
  match t with
  | TAtom v => Some (deliver v stack)
  | TStr s => Some (deliver (VStr s) stack)
  | TLBracket => Some (PFirstItem, stack)
  | TLBrace => Some (PKey [] true, stack)
  | _ => None
  end.

Definition pstep (m : pmode) (stack : list frame) (t : token)
  : option (pmode * list frame) :=
  match m, t with
  | PValue, _ => open_value t stack
  | PFirstItem, TRBracket => Some (deliver (VList []) stack)
  | PFirstItem, _ => open_value t (FArr [] :: stack)
  | PKey d _, TStr k => Some (PColon d k, stack)
  | PKey d true, TRBrace => Some (deliver (VDict d) stack)
  | PColon d k, TColon => Some (PValue, FObj d k :: stack)
  | PNextItem items, TComma => Some (PValue, FArr items :: stack)
  | PNextItem items, TRBracket => Some (deliver (VList (rev items)) stack)
  | PNextMember d, TComma => Some (PKey d false, stack)
  | PNextMember d, TRBrace => Some (deliver (VDict d) stack)
  | _, _ => None
  end.

Fixpoint parse (m : pmode) (stack : list frame) (ts : list token)
  : option value :=
  match ts with
  | [] => match m with PDone v => Some v | _ => None end
  | t :: ts' =>
      match pstep m stack t with
      | Some (m', stack') => parse m' stack' ts'
      | None => None
      end
  end.

(** [json.loads(s)] for a [str] [s]. *)
Definition loads (s : str) : res value :=
  match scan LStart s with
  | Some ts =>
      match parse PValue [] ts with
      | Some v => ret v
      | None => raise (JSONDecodeError s)
      end
  | None => raise (JSONDecodeError s)
  end.

End Json.

(** ** The program *)

(** What the program sends: the fixed parts of the request (the URL, the
    headers, the model, [max_tokens], the wording of the prompt) are
    constants of the source; the two parts that vary are the text written
    into the prompt and the key of the [x-api-key] header. *)
Record request := {
  req_text : value;
  req_api_key : str
}.

(** The lines that the program prints. *)
Inductive line :=
| RateLimitHit (retry_count : nat)
| ProcessingID (id : value)
| Classification (c : value)
| Error (message : str)
| Complete.

(** The rows of the output file, the header first. *)
Definition table := list (list value).

(** What the program does to the outside: a request sent, a line printed,
    a sleep, the rows that the output file holds when it is closed.  The
    standard output encodes as UTF-8: a line that holds a surrogate is not
    printed and [print] raises.  Of the lines below only [Classification]
    can hold one, brought by a reply: the identifier of a row was decoded
    from UTF-8, and the message of an exception has the surrogates
    escaped. *)
Inductive event :=
| Post (r : request)
| Print (l : line)
| Sleep (seconds : Z)
| WriteOutput (t : table).

(** How one call of [requests.post] ends. *)
Inductive outcome :=
| Returns (r : response)
| Raises (e : exn).

(** How a run of a function ends.  [Blocked]: the script of the service
    holds no further outcome, the function has sent a request and has no
    answer yet. *)
Inductive ending (A : Type) :=
| Returned (a : A)
| Raised (e : exn)
| Blocked.
Arguments Raised {A} e.
Arguments Blocked {A}.

Record run (A : Type) := {
  ended : ending A;
  rest : list outcome;
  trace : list event
}.

(** The same run after the events [evs]. *)
Definition later {A} (evs : list event) (r : run A) : run A :=
  {| ended := ended r; rest := rest r; trace := evs ++ trace r |}.

(** [response.raise_for_status()] *)
Definition raise_for_status (r : response) : res unit :=
  if ((400 <=? status_code r) && (status_code r <? 600))%Z
  then raise (HTTPError r)
  else ret tt.

(** [response.json()] *)
Definition json (r : response) : res value := Json.loads (text r).

(** [json.loads(v)] *)
Definition json_loads (v : value) : res value :=
  match v with
  | VStr s => Json.loads s
  | _ => raise (TypeError Loads v)
  end.

(** [response_text.split(marker)[1].split("```")[0].strip()] *)
Definition strip_fence (marker : str) (response_text : value) : res value :=
  parts <- method_split response_text marker ;;
  inner <- index parts 1 ;;
  first <- index (split (lit "```") inner) 0 ;;
  ret (VStr (strip first)).

(** Lines 60 to 63: the clean-up of markdown code blocks. *)
Definition clean (response_text : value) : res value :=
  has_json <- contains (lit "```json") response_text ;;
  if has_json : bool then strip_fence (lit "```json") response_text
  else
    has_fence <- contains (lit "```") response_text ;;
    if has_fence : bool then strip_fence (lit "```") response_text
    else ret response_text.

(** Line 57: [data['content'][0]['text']] *)
Definition reply_text (data : value) : res value :=
  content <- getitem_str data (lit "content") ;;
  first <- getitem_int content 0 ;;
  getitem_str first (lit "text").

(** Lines 60 to 65: the clean-up, then [json.loads]. *)
Definition decode (response_text : value) : res value :=
  response_text <- clean response_text ;;
  json_loads response_text.

(** Lines 57 to 65. *)
Definition parse_reply (data : value) : res value :=
  response_text <- reply_text data ;;
  decode response_text.

(** Lines 53 to 66: what the [try] block does with a response whose status
    is not 429. *)
Definition read_reply (response : response) : res value :=
  _ <- raise_for_status response ;;
  data <- json response ;;
  parse_reply data.

Definition retry_events (rq : request) (retry_count : nat) : list event :=
  [Post rq; Print (RateLimitHit retry_count); Sleep 15].

(** The [while True] loop of [process_text], one turn for each outcome of
    the script. *)
Fixpoint attempts (rq : request) (retry_count : nat) (script : list outcome)
  : run value :=
  match script with
  | [] => {| ended := Blocked; rest := []; trace := [Post rq] |}
  | o :: script' =>
      let again :=
        later (retry_events rq (S retry_count))
              (attempts rq (S retry_count) script') in
      let stop (e : ending value) :=
        {| ended := e; rest := script'; trace := [Post rq] |} in
      let except (e : exn) :=
        match e with
        | HTTPError r =>
            if (status_code r =? 429)%Z then again else stop (Raised e)
        | _ => stop (Raised e)
        end in
      match o with
      | Raises e => except e
      | Returns response =>
          if (status_code response =? 429)%Z then again
          else match read_reply response with
               | inr result => stop (Returned result)
               | inl e => except e
               end
      end
  end.

Definition process_text (text : value) (api_key : str) (script : list outcome)
  : run value :=
  attempts {| req_text := text; req_api_key := api_key |} 0 script.

(** One element of [results]. *)
Record record := {
  id : value;
  original_text : value;
  classification : value;
  transformed_text : value
}.

(** The rows that [csv.DictReader] yields while the file is read: the end
    of the file, one more row, or a failure of the read.  The file is
    decoded as UTF-8, so that the cells of a row hold no surrogate. *)
Inductive reader :=
| Eof
| Row (row : dict) (more : reader)
| Fails (e : exn).

(** The reader that yields the rows [rws] and goes on as [f]. *)
Fixpoint rows_then (rws : list dict) (f : reader) : reader :=
  match rws with
  | [] => f
  | row :: rws' => Row row (rows_then rws' f)
  end.

(** The reader of a file that is read to its end. *)
Definition reader_of (rws : list dict) : reader := rows_then rws Eof.

(** The two files: what opening the input file gives, and the error, if
    any, of opening the output file for writing. *)
Record files := {
  input_file : res reader;
  output_file_error : option exn
}.

Definition fieldnames : list value :=
  [VStr (lit "id"); VStr (lit "original_text");
   VStr (lit "classification"); VStr (lit "transformed_text")].

Definition cells (r : record) : list value :=
  [id r; original_text r; classification r; transformed_text r].

(** The file that [writer.writeheader(); writer.writerows(results)] leave
    when every row is written. *)
Definition output_table (results : list record) : table :=
  fieldnames :: map cells results.

(** [writer.writerow(r)] on a file opened with [encoding='utf-8']: the line
    is encoded as a whole, and nothing of it is written when a cell holds a
    surrogate. *)
Fixpoint write_cells (cs : list value) : res unit :=
  match cs with
  | [] => ret tt
  | c :: cs' => _ <- write_text c ;; write_cells cs'
  end.

(** [writer.writerows(results)]: the rows are written one after the other;
    the rows written, and the exception, if any, that stops the writing. *)
Fixpoint writerows (results : list record) : table * option exn :=
  match results with
  | [] => ([], None)
  | r :: results' =>
      match write_cells (cells r) with
      | inl e => ([], Some e)
      | inr _ =>
          let (rows, failure) := writerows results' in
          (cells r :: rows, failure)
      end
  end.

(** The output file as the events leave it: [None] when it was never
    written. *)
Fixpoint written (evs : list event) : option table :=
  match evs with
  | [] => None
  | ev :: evs' =>
      match written evs' with
      | Some t => Some t
      | None => match ev with WriteOutput t => Some t | _ => None end
      end
  end.

Section Batch.

(** [str(e)]: the text of the message of an exception, as the library that
    raises it words it. *)
Variable str_exn : exn -> str.

(** Lines 92 to 97: the record of a row that was classified. *)
Definition success_record (row_id text result : value) : res record :=
  c <- getitem_str result (lit "classification") ;;
  t <- getitem_str result (lit "transformed_text") ;;
  ret {| id := row_id; original_text := text;
         classification := c; transformed_text := t |}.

(** Lines 103 to 108: the record of a row whose classification raised. *)
Definition error_record (row_id text : value) (e : exn) : record :=
  {| id := row_id; original_text := text;
     classification := VStr (lit "ERROR");
     transformed_text := VStr (str_exn e) |}.

(** The [for] loop of [process_csv], with [results] as it stands when the
    loop reaches the reader [f].  The [print] of line 99 is inside the
    [try], after the [append] of line 92: when it raises, the handler
    appends a second record for the row. *)
Fixpoint for_row_in_reader (f : reader) (api_key : str)
  (results : list record) (script : list outcome) : run (list record) :=
  match f with
  | Eof => {| ended := Returned results; rest := script; trace := [] |}
  | Fails e => {| ended := Raised e; rest := script; trace := [] |}
  | Row row more =>
      match getitem_str (VDict row) (lit "text") with
      | inl e => {| ended := Raised e; rest := script; trace := [] |}
      | inr text =>
      match getitem_str (VDict row) (lit "id") with
      | inl e => {| ended := Raised e; rest := script; trace := [] |}
      | inr row_id =>
          let call := process_text text api_key script in
          let before := Print (ProcessingID row_id) :: trace call in
          let except (results : list record) (e : exn) :=
            later (before ++ [Print (Error (str_exn e))])
                  (for_row_in_reader more api_key
                     (results ++ [error_record row_id text e])
                     (rest call)) in
          match ended call with
          | Blocked =>
              {| ended := Blocked; rest := rest call; trace := before |}
          | Raised e => except results e
          | Returned result =>
              match success_record row_id text result with
              | inl e => except results e
              | inr r =>
                  let results := results ++ [r] in
                  match write_text (classification r) with
                  | inl e => except results e
                  | inr _ =>
                      later
                        (before
                         ++ [Print (Classification (classification r))])
                        (for_row_in_reader more api_key results (rest call))
                  end
              end
          end
      end
      end
  end.

(** [process_csv]: the loop, then the writing of the output file, which
    stops at the first record that cannot be encoded, the file being closed
    with the header and the rows written before it. *)
Definition process_csv (fs : files) (api_key : str) (script : list outcome)
  : run unit :=
  match input_file fs with
  | inl e => {| ended := Raised e; rest := script; trace := [] |}
  | inr f =>
      let loop := for_row_in_reader f api_key [] script in
      match ended loop with
      | Blocked =>
          {| ended := Blocked; rest := rest loop; trace := trace loop |}
      | Raised e =>
          {| ended := Raised e; rest := rest loop; trace := trace loop |}
      | Returned results =>
          match output_file_error fs with
          | Some e =>
              {| ended := Raised e; rest := rest loop; trace := trace loop |}
          | None =>
              let (rows, failure) := writerows results in
              let file := WriteOutput (fieldnames :: rows) in
              match failure with
              | Some e =>
                  {| ended := Raised e; rest := rest loop;
                     trace := trace loop ++ [file] |}
              | None =>
                  {| ended := Returned tt; rest := rest loop;
                     trace := trace loop ++ [file; Print Complete] |}
              end
          end
      end
  end.

End Batch.

(** ** Notions of the statements *)

Abbreviation fence := (lit "```").
Abbreviation fence_json := (lit "```json").

(** What the clean-up keeps of a payload that holds [marker]: the text
    after the first [marker], cut at the next [marker] if there is one, then
    cut at its first fence if there is one, and stripped. *)
Definition fenced (marker p : str) : str :=
  strip (upto fence (upto marker (after marker p))).

Definition extracted (p : str) : str :=
  if str_in fence_json p then fenced fence_json p
  else if str_in fence p then fenced fence p
  else p.

(** The extraction in the words of the specification: the text between the
    first [marker] and the next fence. *)
Definition between (marker p : str) : str := upto fence (after marker p).

Definition extracted_spec (p : str) : str :=
  if str_in fence_json p then between fence_json p
  else if str_in fence p then between fence p
  else p.

(** A content [c] between an opening [marker] and a closing fence, with the
    paddings [w1] and [w2] around it. *)
Definition wrap (marker w1 c w2 : str) : str :=
  marker ++ w1 ++ c ++ w2 ++ fence.

(** The content with its paddings. *)
Definition padded (w1 c w2 : str) : str := w1 ++ c ++ w2.

(** An outcome that makes [process_text] try again. *)
Definition is_rate_limit (o : outcome) : bool :=
  match o with
  | Returns r => (status_code r =? 429)%Z
  | Raises (HTTPError r) => (status_code r =? 429)%Z
  | Raises _ => false
  end.

(** How a call of [process_text] ends on an outcome that is not a rate
    limit. *)
Definition answer_of (o : outcome) : ending value :=
  match o with
  | Raises e => Raised e
  | Returns r =>
      match read_reply r with
      | inr result => Returned result
      | inl e => Raised e
      end
  end.

Definition is_http (e : exn) : bool :=
  match e with HTTPError _ => true | _ => false end.

(** The events of [n] retries in a row, after [k] earlier ones. *)
Fixpoint retries (rq : request) (k n : nat) : list event :=
  match n with
  | O => []
  | S n' => retry_events rq (S k) ++ retries rq (S k) n'
  end.

(** The number of outcomes of a script that end a call of [process_text]. *)
Definition answers (script : list outcome) : nat :=
  length (filter (fun o => negb (is_rate_limit o)) script).

(** The status of a response for which [raise_for_status] raises. *)
Definition is_http_error (status : Z) : bool :=
  ((400 <=? status) && (status <? 600))%Z.

Definition is_none {A} (o : option A) : bool :=
  match o with None => true | Some _ => false end.

(** A value whose text UTF-8 encodes. *)
Definition encodes (v : value) : bool :=
  match write_text v with
  | inr _ => true
  | inl _ => false
  end.

(** A record whose classification can be printed, and a record that the
    writer of the output file can write. *)
Definition printable (r : record) : bool := encodes (classification r).

Definition writable (r : record) : bool := forallb encodes (cells r).

(** The records that the loop appends for a row, and the line it prints
    after the call, when the call of [process_text] ended as [e]. *)
Definition row_records (str_exn : exn -> str) (row_id text : value)
  (e : ending value) : option (list record * line) :=
  let failed (x : exn) :=
    Some ([error_record str_exn row_id text x], Error (str_exn x)) in
  match e with
  | Returned result =>
      match success_record row_id text result with
      | inr r =>
          match write_text (classification r) with
          | inr _ => Some ([r], Classification (classification r))
          | inl x =>
              Some ([r; error_record str_exn row_id text x],
                    Error (str_exn x))
          end
      | inl x => failed x
      end
  | Raised x => failed x
  | Blocked => None
  end.

(** An outcome of the service whose reply, when it has both fields, has a
    classification that can be printed. *)
Definition speakable (o : outcome) : bool :=
  match answer_of o with
  | Returned result =>
      match getitem_str result (lit "classification"),
            getitem_str result (lit "transformed_text") with
      | inr c, inr _ => encodes c
      | _, _ => true
      end
  | _ => true
  end.

(** A row in which both columns can be looked up. *)
Definition has_fields (row : dict) : bool :=
  negb (is_none (dict_get row (lit "id")))
  && negb (is_none (dict_get row (lit "text"))).

(** The column whose lookup fails first on a row that lacks one: [text]
    is looked up before [id]. *)
Definition missing_key (row : dict) : str :=
  if is_none (dict_get row (lit "text")) then lit "text" else lit "id".

(** The [k]-th record is the record of the [k]-th row. *)
Definition records_of (rws : list dict) (recs : list record) : Prop :=
  length recs = length rws /\
  forall k row, nth_error rws k = Some row ->
    exists r, nth_error recs k = Some r /\
              dict_get row (lit "id") = Some (id r) /\
              dict_get row (lit "text") = Some (original_text r).

(** ** Inputs of the examples *)

Definition rejected (s : str) : bool :=
  match Json.loads s with
  | inl _ => true
  | inr _ => false
  end.

Definition ok_response (body : str) : response :=
  {| status_code := 200; reason := lit "OK"; text := body |}.

Definition too_many_requests : response :=
  {| status_code := 429; reason := lit "Too Many Requests"; text := [] |}.

Definition server_error : response :=
  {| status_code := 500; reason := lit "Internal Server Error";
     text := lit "oops" |}.

(** The body of a reply whose text is the object of the example of the
    specification. *)
Definition sky_body : str :=
  dq "{'content':[{'type':'text','text':'{\'classification\':\'fact\',\'transformed_text\':\'The sky is unmistakably blue.\'}'}]}".

Definition sky_result : value :=
  VDict [(lit "classification", VStr (lit "fact"));
         (lit "transformed_text", VStr (lit "The sky is unmistakably blue."))].

Definition sky_row : dict :=
  [(lit "id", VStr (lit "1")); (lit "text", VStr (lit "The sky is blue."))].

Definition sky_record : record :=
  {| id := VStr (lit "1");
     original_text := VStr (lit "The sky is blue.");
     classification := VStr (lit "fact");
     transformed_text := VStr (lit "The sky is unmistakably blue.") |}.

(** The body of a reply whose text is the empty object. *)
Definition empty_object_body : str := dq "{'content':[{'text':'{}'}]}".

(** The body of a reply whose text is not JSON. *)
Definition prose_body : str := dq "{'content':[{'text':'It is a fact.'}]}".

(** The body of a reply whose classification is the escape of a lone
    surrogate, which [json.loads] decodes to the code point U+D800. *)
Definition surrogate_body : str :=
  dq "{'content':[{'text':'{\'classification\':\'\\ud800\',\'transformed_text\':\'x\'}'}]}".


(** The body of a reply whose transformed text holds a lone surrogate. *)
Definition unwritable_body : str :=
  dq "{'content':[{'text':'{\'classification\':\'fact\',\'transformed_text\':\'\\udfff\'}'}]}".

Definition unwritable_record : record :=
  {| id := VStr (lit "1");
     original_text := VStr (lit "The sky is blue.");
     classification := VStr (lit "fact");
     transformed_text := VStr [57343%N] |}.

(** A row of a file whose header has no [text] column. *)
Definition textless_row : dict := [(lit "id", VStr (lit "2"))].

(** A rendering of the exceptions for the examples: the name of the
    class.  The statements hold for every rendering. *)
Definition class_name (e : exn) : str :=
  match e with
  | KeyError _ => lit "KeyError"
  | IndexError _ => lit "IndexError"
  | TypeError _ _ => lit "TypeError"
  | AttributeError _ _ => lit "AttributeError"
  | JSONDecodeError _ => lit "JSONDecodeError"
  | HTTPError _ => lit "HTTPError"
  | RequestError _ => lit "RequestError"
  | OSError _ => lit "OSError"
  | UnicodeDecodeError _ => lit "UnicodeDecodeError"
  | UnicodeEncodeError _ => lit "UnicodeEncodeError"
  end.

(** ** Notions of the proofs about the scanner *)

(** The code points that [str.isspace] accepts. *)
Definition spaces : list char :=
  [9; 10; 11; 12; 13; 28; 29; 30; 31; 32; 133; 160; 5760;
   8192; 8193; 8194; 8195; 8196; 8197; 8198; 8199; 8200; 8201; 8202;
   8232; 8233; 8239; 8287; 12288]%N.

(** The letters that follow the first one in [null], [true], [false],
    [NaN] and [Infinity]. *)
Definition literal_letters : str := lit "ulraseNnfity".

(** A code point that takes no part in a token: between two tokens it is
    skipped or refused, and it ends no string, no escape, no number and no
    literal. *)
Definition quiet (x : char) : bool :=
  match Json.start_char x with
  | None => true
  | Some (Json.LStart, []) => true
  | Some _ => false
  end
  && negb (Json.is_num_char x)
  && negb (x =? 34)%N && negb (x =? 92)%N
  && negb (x =? 117)%N && negb (x =? 73)%N
  && is_none (Json.hexval x) && is_none (Json.simple_escape x)
  && negb (existsb (N.eqb x) literal_letters).

(** The states that the scanner reaches: what remains to be read of a
    literal is made of letters of literals. *)
Definition reachable (st : Json.lstate) : bool :=
  match st with
  | Json.LLit rest _ =>
      forallb (fun c => existsb (N.eqb c) literal_letters) rest
  | _ => true
  end.

(** ** Counting what a run did *)

Definition is_post (ev : event) : bool :=
  match ev with Post _ => true | _ => false end.

Definition is_rate_limit_line (ev : event) : bool :=
  match ev with Print (RateLimitHit _) => true | _ => false end.

Definition is_outcome_line (ev : event) : bool :=
  match ev with
  | Print (Classification _) => true
  | Print (Error _) => true
  | _ => false
  end.

(** The number of requests sent, of lines about a rate limit, and of lines
    that tell how a row ended. *)
Definition posts (evs : list event) : nat := length (filter is_post evs).

Definition rate_limit_lines (evs : list event) : nat :=
  length (filter is_rate_limit_line evs).

Definition outcome_lines (evs : list event) : nat :=
  length (filter is_outcome_line evs).

(** The seconds slept. *)
Definition slept (evs : list event) : Z :=
  fold_right (fun ev acc => match ev with Sleep s => s + acc | _ => acc end)%Z
             0%Z evs.

(** The identifiers of the lines [Processing ID ...], in the order in which
    they are printed. *)
Definition announced (evs : list event) : list value :=
  flat_map (fun ev => match ev with Print (ProcessingID i) => [i] | _ => [] end)
           evs.

(** The rows that a reader yields before it ends or fails. *)
Fixpoint reader_rows (f : reader) : list dict :=
  match f with
  | Row row more => row :: reader_rows more
  | _ => []
  end.

(** A reply whose payload is an object with both fields, neither of them
    one of the three classes. *)
Definition odd_body : str :=
  dq "{'content':[{'text':'{\'classification\':42,\'transformed_text\':null}'}]}".

Definition odd_result : value :=
  VDict [(lit "classification", VInt 42); (lit "transformed_text", VNone)].

(** What one call of [process_text] leaves in the trace. *)
Record call_trace (rq : request) (evs : list event) : Prop := {
  call_posts : posts evs = (rate_limit_lines evs + 1)%nat;
  call_slept : slept evs = (15 * Z.of_nat (rate_limit_lines evs))%Z;
  call_outcome_lines : outcome_lines evs = 0%nat;
  call_announced : announced evs = [];
  call_requests : forall rq', In (Post rq') evs -> rq' = rq
}.

(** What the loop leaves in the trace. *)
Record loop_trace (api_key : str) (rws : list dict) (evs : list event)
  : Prop := {
  loop_posts :
    posts evs = (length (announced evs) + rate_limit_lines evs)%nat;
  loop_slept : slept evs = (15 * Z.of_nat (rate_limit_lines evs))%Z;
  loop_requests : forall rq, In (Post rq) evs ->
    req_api_key rq = api_key /\
    exists row, In row rws /\ dict_get row (lit "text") = Some (req_text rq)
}.

(** * Properties *)

(** ** The library functions on examples *)

Example split_ex1 :
  split (lit "```") (lit "a```b```c") = [lit "a"; lit "b"; lit "c"].
Proof. reflexivity. Qed.

Example split_ex2 :
  split (lit "```json") (lit "```jsonx````json y") = [[]; lit "x`"; lit " y"].
Proof. reflexivity. Qed.

Example strip_ex : strip (lit "  {} " ++ [160%N; 10%N]) = lit "{}".
Proof. reflexivity. Qed.

Example loads_ex1 :
  Json.loads (dq "{'classification': 'fact', 'transformed_text': 'The sky.'}")
  = inr (VDict [(lit "classification", VStr (lit "fact"));
                (lit "transformed_text", VStr (lit "The sky."))]).
Proof. reflexivity. Qed.

Example loads_ex2 :
  Json.loads (dq " [1, -2.5e3, true, null, {'a': [], 'a': 'x\n\u00e9'}] ")
  = inr (VList [VInt 1; VFloat (lit "-2.5e3"); VBool true; VNone;
                VDict [(lit "a", VStr [120%N; 10%N; 233%N])]]).
Proof. reflexivity. Qed.

Example loads_ex3 : Json.loads (dq "{'a':'") = inl (JSONDecodeError (dq "{'a':'")).
Proof. reflexivity. Qed.

Example loads_ex4 :
  Json.loads (dq "'\ud83d\ude00'") = inr (VStr [128512%N]) /\
  Json.loads (lit "[1,]") = inl (JSONDecodeError (lit "[1,]")) /\
  Json.loads (lit "01") = inl (JSONDecodeError (lit "01")) /\
  Json.loads (lit "-Infinity") = inr (VFloat (lit "-Infinity")) /\
  Json.loads (160%N :: lit "{}") = inl (JSONDecodeError (160%N :: lit "{}")).
Proof. repeat split; reflexivity. Qed.

Example loads_accepts :
  Json.loads (lit "-0") = inr (VInt 0) /\
  Json.loads (lit "1e5") = inr (VFloat (lit "1e5")) /\
  Json.loads (lit "[NaN, Infinity, -Infinity]")
  = inr (VList [VFloat (lit "NaN"); VFloat (lit "Infinity");
                VFloat (lit "-Infinity")]) /\
  Json.loads (dq "'\ud83d\ud83d\ude00'") = inr (VStr [55357; 128512]%N) /\
  Json.loads (dq "'\ud800x'") = inr (VStr [55296; 120]%N) /\
  Json.loads [34; 127; 34]%N = inr (VStr [127%N]) /\
  Json.loads (dq "''") = inr (VStr []) /\
  Json.loads (dq "{'a': {'b': [[], {}]}}")
  = inr (VDict [(lit "a", VDict [(lit "b", VList [VList []; VDict []])])]).
Proof. repeat split. Qed.

Example loads_rejects :
  forallb rejected
    [lit ""; lit " "; dq "{'a':1,}"; lit "[1 2]"; lit "nul"; lit "1.";
     lit ".5"; lit "-"; lit "+1"; [34; 31; 34]%N; 65279%N :: lit "{}";
     lit "-Infinit"; dq "{'a':}"; dq "'\u12G4'"; dq "'\x'"; lit "tru";
     lit "truee"; lit "{}x"; dq "'a' 'b'"; lit "'a'"; lit "-NaN";
     dq "{1: 2}"; lit "[,1]"; lit "]"; dq "{'a' 1}"; lit "1 2"]
  = true.
Proof. reflexivity. Qed.

(** ** Strings *)

Section StrFacts.

Implicit Types (sep s a b : str).

Lemma startswith_app sep s t :
  startswith sep s = true -> startswith sep (s ++ t) = true.
Proof.
  revert s; induction sep as [|x sep IH]; intros [|y s]; simpl; auto;
    try discriminate.
  intros H; apply andb_true_iff in H as [-> H]; simpl; auto.
Qed.

Lemma startswith_self sep t : startswith sep (sep ++ t) = true.
Proof.
  induction sep as [|x sep IH]; simpl; auto.
  now rewrite N.eqb_refl.
Qed.

Lemma startswith_split sep s :
  startswith sep s = true -> s = sep ++ skipn (length sep) s.
Proof.
  revert s; induction sep as [|x sep IH]; intros [|y s]; simpl; auto;
    try discriminate.
  intros H; apply andb_true_iff in H as [Hxy H].
  apply N.eqb_eq in Hxy; subst y; f_equal; auto.
Qed.

Lemma str_in_find sep s :
  str_in sep s = match find sep s with Some _ => true | None => false end.
Proof.
  induction s as [|x s IH]; simpl.
  - destruct (startswith sep []); reflexivity.
  - destruct (startswith sep (x :: s)); simpl; auto.
    rewrite IH; destruct (find sep s) as [[a b]|]; reflexivity.
Qed.

Lemma find_app sep s a b : find sep s = Some (a, b) -> s = a ++ sep ++ b.
Proof.
  revert a b; induction s as [|x s IH]; simpl; intros a b.
  - destruct (startswith sep []) eqn:E; [|discriminate].
    intros [= <- <-]; simpl; now apply startswith_split in E.
  - destruct (startswith sep (x :: s)) eqn:E.
    + intros [= <- <-]; simpl; now apply startswith_split in E.
    + destruct (find sep s) as [[a' b']|]; [|discriminate].
      intros [= <- <-]; simpl; f_equal; auto.
Qed.

(** No occurrence of the separator before the first one. *)
Lemma find_before sep s a b :
  sep <> [] -> find sep s = Some (a, b) -> find sep a = None.
Proof.
  intros Hsep; revert a b; induction s as [|x s IH]; simpl; intros a b.
  - destruct sep; [congruence|]; discriminate.
  - destruct (startswith sep (x :: s)) eqn:E.
    + intros [= <- <-]; destruct sep; [congruence|reflexivity].
    + destruct (find sep s) as [[a' b']|] eqn:F; [|discriminate].
      intros [= <- <-]; simpl.
      destruct (startswith sep (x :: a')) eqn:E'.
      * apply find_app in F; subst s.
        apply (startswith_app _ _ (sep ++ b')) in E'; simpl in E'; congruence.
      * now erewrite IH by eauto.
Qed.

Lemma find_length sep s a b :
  sep <> [] -> find sep s = Some (a, b) -> (length b < length s)%nat.
Proof.
  intros Hsep F; apply find_app in F; subst s.
  rewrite !length_app; destruct sep; [congruence|simpl; lia].
Qed.

Lemma upto_upto sep s : sep <> [] -> upto sep (upto sep s) = upto sep s.
Proof.
  intros Hsep; unfold upto at 2 3.
  destruct (find sep s) as [[a b]|] eqn:F.
  - unfold upto; now erewrite find_before by eauto.
  - unfold upto; now rewrite F.
Qed.

(** The first piece of a split, and the second one when the separator
    occurs. *)
Lemma split_upto_head n sep s :
  exists tl, split_upto n sep s = upto sep s :: tl.
Proof.
  unfold upto; destruct n; simpl;
    destruct (find sep s) as [[a b]|]; eauto.
Qed.

Lemma split_first sep s : exists tl, split sep s = upto sep s :: tl.
Proof. apply split_upto_head. Qed.

Lemma split_second sep s :
  sep <> [] -> str_in sep s = true ->
  exists tl, split sep s = upto sep s :: upto sep (after sep s) :: tl.
Proof.
  intros Hsep Hin; rewrite str_in_find in Hin.
  unfold split, upto at 1, after.
  destruct (find sep s) as [[a b]|] eqn:F; [|discriminate].
  assert (Hlen : (length b < length s)%nat) by (eapply find_length; eauto).
  destruct (length s) as [|n]; [lia|]; simpl; rewrite F.
  destruct (split_upto_head n sep b) as [tl ->]; eauto.
Qed.

(** The bound on the number of steps of [split] is never reached: [split]
    satisfies the equation of the pieces. *)
Lemma split_upto_enough sep : sep <> [] -> forall n m s,
  (length s <= n)%nat -> (length s <= m)%nat ->
  split_upto n sep s = split_upto m sep s.
Proof.
  intros Hsep; induction n as [|n IH]; intros m s Hn Hm.
  - destruct s; [|simpl in Hn; lia].
    destruct m; simpl; destruct sep; try congruence; reflexivity.
  - destruct (find sep s) as [[a b]|] eqn:F.
    + assert (length b < length s)%nat by (eapply find_length; eauto).
      destruct m as [|m]; [lia|].
      simpl; rewrite F; f_equal; apply IH; lia.
    + destruct m; simpl; now rewrite F.
Qed.

Lemma split_eq sep s :
  sep <> [] ->
  split sep s = match find sep s with
                | None => [s]
                | Some (a, b) => a :: split sep b
                end.
Proof.
  intros Hsep; unfold split.
  destruct (find sep s) as [[a b]|] eqn:F.
  - assert (length b < length s)%nat by (eapply find_length; eauto).
    destruct (length s) as [|n] eqn:E; [lia|].
    simpl; rewrite F; f_equal; apply split_upto_enough; auto; lia.
  - destruct (length s); simpl; now rewrite F.
Qed.

End StrFacts.

(** ** The clean-up of the reply *)

Lemma fence_not_nil : fence <> [].
Proof. discriminate. Qed.

Lemma fence_json_not_nil : fence_json <> [].
Proof. discriminate. Qed.

Lemma seq_index_0 {A} (x : A) l : seq_index (x :: l) 0 = Some x.
Proof.
  unfold seq_index.
  replace (0 <? 0)%Z with false by reflexivity.
  replace ((0 <=? 0) && (0 <? Z.of_nat (length (x :: l))))%Z with true;
    [reflexivity|].
  symmetry; apply andb_true_iff; split; [reflexivity|].
  apply Z.ltb_lt; simpl length; lia.
Qed.

Lemma seq_index_1 {A} (x y : A) l : seq_index (x :: y :: l) 1 = Some y.
Proof.
  unfold seq_index.
  replace (1 <? 0)%Z with false by reflexivity.
  replace ((0 <=? 1) && (1 <? Z.of_nat (length (x :: y :: l))))%Z with true;
    [reflexivity|].
  symmetry; apply andb_true_iff; split; [reflexivity|].
  apply Z.ltb_lt; simpl length; lia.
Qed.

Lemma strip_fence_found marker p :
  marker <> [] -> str_in marker p = true ->
  strip_fence marker (VStr p) = ret (VStr (fenced marker p)).
Proof.
  intros Hm Hin; unfold strip_fence, fenced; simpl.
  edestruct split_second as [tl ->]; [exact Hm|exact Hin|].
  unfold index at 1; rewrite seq_index_1; simpl.
  destruct (split_first fence (upto marker (after marker p))) as [tl' ->].
  unfold index; rewrite seq_index_0; reflexivity.
Qed.

Lemma clean_str p : clean (VStr p) = ret (VStr (extracted p)).
Proof.
  unfold clean, extracted; simpl.
  destruct (str_in fence_json p) eqn:Hj.
  - apply strip_fence_found; [discriminate|assumption].
  - destruct (str_in fence p) eqn:Hf; [|reflexivity].
    apply strip_fence_found; [discriminate|assumption].
Qed.

Lemma fenced_fence p : fenced fence p = strip (upto fence (after fence p)).
Proof. unfold fenced; rewrite upto_upto; [reflexivity|discriminate]. Qed.

(** C3 (amended).  For every reply payload [p] that is a string, the
    clean-up of lines 60 to 63 returns [extracted p], and [json.loads] is
    applied to it.  [extracted p] is: when [p] holds the marker "```json",
    the text after the first such marker, cut at the next "```json" marker
    if there is one, then cut at its first "```" marker if there is one,
    with the whitespace at both ends removed; otherwise, when [p] holds a
    "```" marker, the text after the first such marker up to the next one
    (up to the end of [p] when there is no next one), with the whitespace at
    both ends removed; otherwise [p] itself, unchanged. *)
Theorem clean_extracts_fenced_text (p : str) :
  clean (VStr p) = ret (VStr (extracted p)) /\
  decode (VStr p) = Json.loads (extracted p) /\
  extracted p =
    if str_in fence_json p
    then strip (upto fence (upto fence_json (after fence_json p)))
    else if str_in fence p
         then strip (upto fence (after fence p))
         else p.
Proof.
  split; [apply clean_str|split].
  - unfold decode; rewrite clean_str; reflexivity.
  - unfold extracted; rewrite fenced_fence; reflexivity.
Qed.

(** C3 as the specification words it fails: the no-break space (code point
    160) that surrounds the object below is not part of the text that the
    program decodes, although it lies between the two markers; decoding the
    text between the markers would fail, the program returns the object. *)
Lemma clean_strips_between_markers :
  let p := fence_json ++ 160%N :: lit "{}" ++ 160%N :: fence in
  str_in fence_json p = true /\
  extracted_spec p = 160%N :: lit "{}" ++ [160%N] /\
  clean (VStr p) = ret (VStr (lit "{}")) /\
  clean (VStr p) <> ret (VStr (extracted_spec p)) /\
  decode (VStr p) = ret (VDict []) /\
  Json.loads (extracted_spec p)
  = raise (JSONDecodeError (160%N :: lit "{}" ++ [160%N])).
Proof.
  repeat split; try reflexivity.
  intros H; vm_compute in H; discriminate.
Qed.

(** The text kept after a "```json" marker ends at a later "```json"
    marker even when a "```" marker begins one or two characters before
    it. *)
Example clean_overlapping_markers :
  clean (VStr (lit "```jsonx````json y")) = ret (VStr (lit "x`")) /\
  extracted_spec (lit "```jsonx````json y") = lit "x".
Proof. split; reflexivity. Qed.

(** ** The scanner and the whitespace around a JSON text *)

Section ScanFacts.

Import Json.

Lemma isspace_spaces x : isspace x = true -> In x spaces.
Proof.
  unfold isspace; intros H.
  repeat (apply orb_true_iff in H as [H|H]);
    repeat (apply andb_true_iff in H as [? H]);
    repeat match goal with
           | H : (_ <=? _)%N = true |- _ => apply N.leb_le in H
           | H : (_ =? _)%N = true |- _ => apply N.eqb_eq in H
           end;
    unfold spaces; simpl; lia.
Qed.

Lemma quiet_space x : isspace x = true -> quiet x = true.
Proof.
  intros H; apply isspace_spaces in H; unfold spaces in H; simpl in H.
  repeat (destruct H as [<-|H]; [reflexivity|]); contradiction.
Qed.

Lemma quiet_backtick : quiet 96%N = true.
Proof. reflexivity. Qed.

Lemma step_reachable st y st' ts :
  reachable st = true -> step st y = Some (st', ts) -> reachable st' = true.
Proof.
  destruct st as [|acc|acc hi|acc hi|acc hi n v|acc|lrest v];
    simpl; intros Hr Hs.
  - unfold start_char in Hs.
    repeat match type of Hs with
           | (if ?b then _ else _) = _ => destruct b
           end;
      inversion Hs; subst; reflexivity.
  - unfold str_char in Hs.
    repeat match type of Hs with
           | (if ?b then _ else _) = _ => destruct b
           end;
      inversion Hs; subst; reflexivity.
  - unfold str_char in Hs.
    repeat match type of Hs with
           | (if ?b then _ else _) = _ => destruct b
           end;
      inversion Hs; subst; reflexivity.
  - destruct (y =? 117)%N; [inversion Hs; subst; reflexivity|].
    destruct (simple_escape y); inversion Hs; subst; reflexivity.
  - destruct (hexval y); [|discriminate].
    destruct (Nat.eqb n 3); inversion Hs; subst; [|reflexivity].
    unfold after_unicode, fresh.
    destruct hi; repeat match goal with
                        | |- context [if ?b then _ else _] => destruct b
                        end; reflexivity.
  - destruct (is_num_char y); [inversion Hs; subst; reflexivity|].
    destruct (str_eqb acc [45%N] && (y =? 73)%N);
      [inversion Hs; subst; reflexivity|].
    destruct (number (rev acc)); [|discriminate].
    destruct (start_char y) as [[st1 ts1]|] eqn:E; [|discriminate].
    inversion Hs; subst.
    unfold start_char in E.
    repeat match type of E with
           | (if ?b then _ else _) = _ => destruct b
           end;
      inversion E; subst; reflexivity.
  - destruct lrest as [|x rest']; [discriminate|].
    destruct (y =? x)%N; [|discriminate].
    apply andb_true_iff in Hr as [_ Hr].
    destruct (is_nil rest'); inversion Hs; subst; [reflexivity|exact Hr].
Qed.

Lemma quiet_facts x :
  quiet x = true ->
  (start_char x = None \/ start_char x = Some (LStart, [])) /\
  is_num_char x = false /\ (x =? 34)%N = false /\ (x =? 92)%N = false /\
  (x =? 117)%N = false /\ (x =? 73)%N = false /\
  hexval x = None /\ simple_escape x = None /\
  existsb (N.eqb x) literal_letters = false.
Proof.
  unfold quiet; intros H.
  repeat (apply andb_true_iff in H as [H ?]).
  repeat match goal with
         | H : negb _ = true |- _ => apply negb_true_iff in H
         end.
  repeat split; try assumption.
  - destruct (start_char x) as [[[] [|]]|]; auto; discriminate.
  - destruct (hexval x); [discriminate|reflexivity].
  - destruct (simple_escape x); [discriminate|reflexivity].
Qed.

Lemma not_literal_letter x y l :
  existsb (N.eqb x) literal_letters = false ->
  existsb (N.eqb y) literal_letters && l = true ->
  (x =? y)%N = false.
Proof.
  intros Hx Hy; apply andb_true_iff in Hy as [Hy _].
  destruct (N.eqb_spec x y) as [->|]; [congruence|reflexivity].
Qed.

(** A quiet code point at the end of a text that the scanner accepts was
    skipped as whitespace: the text without it gives the same tokens. *)
Lemma scan_trailing x s : forall st ts,
  quiet x = true -> reachable st = true ->
  scan st (s ++ [x]) = Some ts ->
  scan st s = Some ts /\ start_char x = Some (LStart, []).
Proof.
  induction s as [|y s IH]; intros st ts Hq Hr H.
  - destruct (quiet_facts _ Hq)
      as (Hstart & Hnum & H34 & H92 & H117 & H73 & Hhex & Hesc & Hlet).
    simpl in H.
    destruct st as [|acc|acc hi|acc hi|acc hi n v|acc|lrest v]; simpl in *.
    + destruct Hstart as [E|E]; rewrite E in H; [discriminate|].
      simpl in H; auto.
    + unfold str_char in H; rewrite H34, H92 in H.
      destruct (x <? 32)%N; discriminate.
    + rewrite H92 in H; unfold str_char in H; rewrite H34, H92 in H.
      destruct (x <? 32)%N; discriminate.
    + rewrite H117, Hesc in H; discriminate.
    + rewrite Hhex in H; discriminate.
    + rewrite Hnum, H73, andb_false_r in H.
      destruct (number (rev acc)); [|discriminate].
      destruct Hstart as [E|E]; rewrite E in H; [discriminate|].
      simpl in H; auto.
    + destruct lrest as [|y rest']; [discriminate|].
      rewrite (not_literal_letter _ _ _ Hlet Hr) in H; discriminate.
  - simpl in H |- *.
    destruct (step st y) as [[st' t1]|] eqn:E; [|discriminate].
    destruct (scan st' (s ++ [x])) as [t2|] eqn:E2; [|discriminate].
    destruct (IH st' t2 Hq (step_reachable _ _ Hr E) E2) as [-> Hx].
    auto.
Qed.

Lemma scan_head x s ts :
  scan LStart (x :: s) = Some ts -> x <> 96%N /\ x <> 106%N.
Proof. intros H; split; intros ->; discriminate. Qed.

Lemma scan_leading x s ts :
  isspace x = true -> scan LStart (x :: s) = Some ts -> scan LStart s = Some ts.
Proof.
  intros Hx H; simpl in H.
  destruct (quiet_facts _ (quiet_space _ Hx)) as ([E|E] & _);
    rewrite E in H; [discriminate|].
  destruct (scan LStart s); [exact H|discriminate].
Qed.

Lemma scan_lstrip s ts :
  scan LStart s = Some ts -> scan LStart (lstrip s) = Some ts.
Proof.
  induction s as [|x s IH]; simpl lstrip; auto.
  destruct (isspace x) eqn:Hx; auto.
  intros H; apply IH; eapply scan_leading; eauto.
Qed.

Lemma rstrip_snoc s x :
  rstrip (s ++ [x]) = if isspace x then rstrip s else s ++ [x].
Proof.
  unfold rstrip; rewrite rev_app_distr; simpl.
  destruct (isspace x); [reflexivity|].
  simpl; now rewrite rev_involutive.
Qed.

Lemma scan_rstrip s ts :
  scan LStart s = Some ts -> scan LStart (rstrip s) = Some ts.
Proof.
  induction s as [|x s IH] using rev_ind; auto.
  rewrite rstrip_snoc; destruct (isspace x) eqn:Hx; auto.
  intros H; apply IH.
  eapply scan_trailing; eauto using quiet_space.
Qed.

Lemma scan_strip s ts :
  scan LStart s = Some ts -> scan LStart (strip s) = Some ts.
Proof. intros H; apply scan_lstrip, scan_rstrip, H. Qed.

Lemma loads_scan c v :
  loads c = inr v ->
  exists ts, scan LStart c = Some ts /\ parse PValue [] ts = Some v.
Proof.
  unfold loads; destruct (scan LStart c) as [ts|]; [|discriminate].
  destruct (parse PValue [] ts) eqn:E; [|discriminate].
  intros [= <-]; eauto.
Qed.

(** [json.loads] gives the same value on a text that it accepts and on the
    stripped text. *)
Lemma loads_strip c v : loads c = inr v -> loads (strip c) = inr v.
Proof.
  intros H; destruct (loads_scan _ H) as (ts & Hs & Hp).
  unfold loads; now rewrite (scan_strip _ Hs), Hp.
Qed.

(** A text that [json.loads] accepts begins neither with a backtick nor
    with the letter j, and does not end with a backtick. *)
Lemma loads_head c v :
  loads c = inr v -> exists x s, c = x :: s /\ x <> 96%N /\ x <> 106%N.
Proof.
  intros H; destruct (loads_scan _ H) as (ts & Hs & Hp).
  destruct c as [|x s].
  - simpl in Hs; injection Hs as <-; discriminate.
  - exists x, s; split; [reflexivity|eapply scan_head; eauto].
Qed.

Lemma loads_last c v :
  loads c = inr v -> exists s x, c = s ++ [x] /\ x <> 96%N.
Proof.
  intros H; destruct (loads_scan _ H) as (ts & Hs & Hp).
  destruct c as [|x0 s0 _] using rev_ind.
  - simpl in Hs; injection Hs as <-; discriminate.
  - exists s0, x0; split; [reflexivity|intros ->].
    destruct (scan_trailing _ _ LStart quiet_backtick eq_refl Hs) as [_ E].
    discriminate.
Qed.

End ScanFacts.

(** ** A content between fences *)

Section Fences.

Implicit Types (p q s t u w : str).

Lemma startswith_prefix p q s :
  startswith (p ++ q) s = true -> startswith p s = true.
Proof.
  revert s; induction p as [|a p IH]; intros [|y s]; simpl; auto.
  intros H; apply andb_true_iff in H as [-> H]; simpl; auto.
Qed.

(** A text whose last character is foreign to [p] hides no beginning of an
    occurrence of [p] that would run past its end. *)
Lemma startswith_past_end p x : forall s t,
  ~ In x p -> startswith p ((s ++ [x]) ++ t) = startswith p (s ++ [x]).
Proof.
  induction p as [|a p IH]; intros s t Hx; [reflexivity|].
  destruct s as [|y s]; simpl.
  - destruct (N.eqb_spec a x) as [->|]; [|reflexivity].
    exfalso; apply Hx; left; reflexivity.
  - rewrite IH; [reflexivity|]. intros Hin; apply Hx; right; exact Hin.
Qed.

Lemma str_in_nil p : p <> [] -> str_in p [] = false.
Proof. destruct p; [congruence|reflexivity]. Qed.

Lemma skipn_length_app p t : skipn (length p) (p ++ t) = t.
Proof. induction p; simpl; auto. Qed.

Lemma find_startswith p s :
  startswith p s = true -> find p s = Some ([], skipn (length p) s).
Proof. intros H; destruct s; simpl; now rewrite H. Qed.

Lemma find_here p t : find p (p ++ t) = Some ([], t).
Proof.
  rewrite find_startswith by apply startswith_self.
  now rewrite skipn_length_app.
Qed.

Lemma find_none_upto p s : str_in p s = false -> upto p s = s.
Proof.
  rewrite str_in_find; unfold upto.
  destruct (find p s) as [[a b]|]; [discriminate|reflexivity].
Qed.

(** The first occurrence of [p] after a text [u] that holds none and whose
    last character is foreign to [p]. *)
Lemma find_closing p post : forall u,
  p <> [] ->
  str_in p u = false ->
  (forall u' x, u = u' ++ [x] -> ~ In x p) ->
  find p (u ++ p ++ post) = Some (u, post).
Proof.
  intros u Hp; induction u as [|y u IH]; intros Hin Hend.
  - exact (find_here p post).
  - destruct (exists_last (l := y :: u)) as (u' & x & E); [discriminate|].
    assert (S1 : startswith p ((y :: u) ++ p ++ post) = startswith p (y :: u)).
    { rewrite E; apply startswith_past_end; eapply Hend; eauto. }
    simpl in Hin; apply orb_false_iff in Hin as [Hs Hin].
    cbn [find app]; cbn [app] in S1; rewrite S1, Hs.
    rewrite IH; [reflexivity|exact Hin|].
    intros u1 x1 E1; apply (Hend (y :: u1)); rewrite E1; reflexivity.
Qed.

(** No longer pattern [p ++ q] occurs in [u ++ p] under the same
    conditions. *)
Lemma str_in_longer p q : forall u,
  q <> [] ->
  str_in p u = false ->
  (forall u' x, u = u' ++ [x] -> ~ In x p) ->
  str_in (p ++ q) (u ++ p) = false.
Proof.
  intros u Hq; induction u as [|y u IH]; intros Hin Hend.
  - simpl. clear -Hq.
    assert (L : forall s, (length s < length (p ++ q))%nat ->
                          startswith (p ++ q) s = false).
    { generalize (p ++ q) as r; induction r as [|a r IHr]; intros [|z s];
        simpl; intros Hl; try lia; auto.
      rewrite IHr by lia; apply andb_false_r. }
    assert (Hlen : forall s, (length s <= length p)%nat ->
                             str_in (p ++ q) s = false).
    { induction s as [|z s IHs]; simpl; intros Hl.
      - rewrite L; [reflexivity|].
        rewrite length_app; destruct q; [congruence|simpl; lia].
      - rewrite L, IHs; [reflexivity|lia|].
        rewrite length_app; destruct q; [congruence|simpl in *; lia]. }
    apply Hlen; lia.
  - destruct (exists_last (l := y :: u)) as (u' & x & E); [discriminate|].
    simpl in Hin; apply orb_false_iff in Hin as [Hs Hin].
    cbn [str_in app]; apply orb_false_iff; split.
    + destruct (startswith (p ++ q) (y :: u ++ p)) eqn:S; [|reflexivity].
      apply startswith_prefix in S.
      assert (S1 : startswith p ((y :: u) ++ p) = startswith p (y :: u)).
      { rewrite E; apply startswith_past_end; eapply Hend; eauto. }
      cbn [app] in S1; congruence.
    + apply IH; [exact Hin|].
      intros u1 x1 E1; apply (Hend (y :: u1)); rewrite E1; reflexivity.
Qed.

(** An occurrence of [p] in [s ++ t] lies in [s] or in [t] when [t] is
    empty or begins with a character foreign to [p]. *)
Lemma startswith_foreign p : forall s t,
  (forall x t', t = x :: t' -> ~ In x p) ->
  startswith p (s ++ t) = startswith p s.
Proof.
  induction p as [|a p IH]; intros s t Ht; [reflexivity|].
  destruct s as [|y s]; simpl.
  - destruct t as [|x t']; [reflexivity|].
    destruct (N.eqb_spec a x) as [->|]; [|reflexivity].
    exfalso; apply (Ht x t' eq_refl); left; reflexivity.
  - rewrite IH; [reflexivity|].
    intros x t' E Hin; apply (Ht x t' E); right; exact Hin.
Qed.

Lemma str_in_app p s t :
  p <> [] ->
  (forall x t', t = x :: t' -> ~ In x p) ->
  str_in p (s ++ t) = str_in p s || str_in p t.
Proof.
  intros Hp Ht; induction s as [|y s IH].
  - cbn [app]; now rewrite (str_in_nil Hp).
  - cbn [str_in app].
    change (y :: s ++ t) with ((y :: s) ++ t).
    rewrite startswith_foreign by exact Ht.
    rewrite IH, orb_assoc; reflexivity.
Qed.

Lemma lstrip_spaces w s : forallb isspace w = true -> lstrip (w ++ s) = lstrip s.
Proof.
  induction w as [|x w IH]; simpl; auto.
  intros H; apply andb_true_iff in H as [-> H]; auto.
Qed.

Lemma lstrip_all_spaces w : forallb isspace w = true -> lstrip w = [].
Proof.
  intros H; rewrite <- (app_nil_r w), lstrip_spaces; auto.
Qed.

Lemma lstrip_app s t :
  lstrip (s ++ t) = if forallb isspace s then lstrip t else lstrip s ++ t.
Proof.
  induction s as [|x s IH]; simpl; auto.
  destruct (isspace x); simpl; auto.
Qed.

Lemma forallb_rev {A} (f : A -> bool) l : forallb f (rev l) = forallb f l.
Proof.
  induction l as [|x l IH]; simpl; auto.
  rewrite forallb_app, IH; simpl; rewrite andb_true_r; apply andb_comm.
Qed.

(** Whitespace around a text does not change what [strip] returns. *)
Lemma strip_padding w1 c w2 :
  forallb isspace w1 = true -> forallb isspace w2 = true ->
  strip (w1 ++ c ++ w2) = strip c.
Proof.
  intros H1 H2; unfold strip, rstrip.
  rewrite !rev_app_distr.
  rewrite <- app_assoc, lstrip_spaces by (now rewrite forallb_rev).
  rewrite lstrip_app.
  destruct (forallb isspace (rev c)) eqn:Ec.
  - rewrite (lstrip_all_spaces (rev w1)) by (now rewrite forallb_rev).
    rewrite (lstrip_all_spaces (rev c)) by assumption. reflexivity.
  - rewrite rev_app_distr, rev_involutive, lstrip_spaces by assumption.
    reflexivity.
Qed.

Lemma space_not_backtick x : isspace x = true -> x <> 96%N /\ x <> 106%N.
Proof. intros H; split; intros ->; discriminate. Qed.

Lemma str_in_spaces w : forallb isspace w = true -> str_in fence w = false.
Proof.
  induction w as [|x w IH]; [reflexivity|].
  intros H; simpl in H; apply andb_true_iff in H as [Hx H].
  cbn [str_in]; rewrite (IH H), orb_false_r.
  apply space_not_backtick in Hx as [Hx _].
  change fence with [96%N; 96%N; 96%N]; cbn [startswith].
  destruct (N.eqb_spec 96 x); [congruence|reflexivity].
Qed.

End Fences.

Section Wrapping.

Variables (c w1 w2 : str) (v : value).
Hypothesis Hvalid : Json.loads c = inr v.
Hypothesis Hplain : str_in fence c = false.
Hypothesis Hw1 : forallb isspace w1 = true.
Hypothesis Hw2 : forallb isspace w2 = true.

Lemma not_in_fence x : x <> 96%N -> ~ In x fence.
Proof.
  intros Hx H; change fence with [96; 96; 96]%N in H.
  destruct H as [E|[E|[E|[]]]]; congruence.
Qed.

Lemma head_space x w : forallb isspace (x :: w) = true -> x <> 96%N /\ x <> 106%N.
Proof.
  simpl; intros H; apply andb_true_iff in H as [H _].
  now apply space_not_backtick.
Qed.

Lemma padded_plain : str_in fence (padded w1 c w2) = false.
Proof.
  unfold padded.
  destruct (loads_head _ Hvalid) as (x & s & Ec & Hx & _).
  rewrite str_in_app; [|discriminate|].
  - rewrite str_in_spaces by assumption.
    rewrite str_in_app; [|discriminate|].
    + now rewrite Hplain, str_in_spaces.
    + intros y t' E; apply not_in_fence.
      rewrite E in Hw2; now apply head_space in Hw2.
  - rewrite Ec; intros y t' [= <- _]; now apply not_in_fence.
Qed.

Lemma padded_end u' x : padded w1 c w2 = u' ++ [x] -> ~ In x fence.
Proof.
  unfold padded; intros E; apply not_in_fence.
  destruct (loads_last _ Hvalid) as (s & y & Ec & Hy).
  revert E; generalize Hw2; generalize w2.
  intros w; destruct w as [|z w' _] using rev_ind; intros Hw E.
  - rewrite app_nil_r, Ec, app_assoc in E.
    apply app_inj_tail in E as [_ <-]; exact Hy.
  - rewrite !app_assoc in E; apply app_inj_tail in E as [_ <-].
    rewrite forallb_app in Hw; apply andb_true_iff in Hw as [_ Hz].
    now apply head_space in Hz.
Qed.

Lemma padded_head :
  exists x s, padded w1 c w2 = x :: s /\ x <> 96%N /\ x <> 106%N.
Proof.
  unfold padded; generalize Hw1; generalize w1; intros [|x w] Hw.
  - destruct (loads_head _ Hvalid) as (x & s & -> & Hx).
    exists x, (s ++ w2); auto.
  - exists x, (w ++ c ++ w2); split; [reflexivity|].
    eapply head_space; eauto.
Qed.

Lemma padded_closing :
  upto fence (padded w1 c w2 ++ fence) = padded w1 c w2.
Proof.
  unfold upto.
  rewrite <- (app_nil_r fence) at 2.
  rewrite find_closing;
    [reflexivity|discriminate|apply padded_plain|apply padded_end].
Qed.

Lemma padded_no_json :
  str_in fence_json (padded w1 c w2 ++ fence) = false.
Proof.
  apply (@str_in_longer fence (lit "json"));
    [discriminate|apply padded_plain|apply padded_end].
Qed.

Lemma str_in_here p t : str_in p (p ++ t) = true.
Proof. now rewrite str_in_find, find_here. Qed.

Lemma after_here p t : after p (p ++ t) = t.
Proof. unfold after; now rewrite find_here. Qed.

Lemma wrap_padded marker :
  wrap marker w1 c w2 = marker ++ padded w1 c w2 ++ fence.
Proof. unfold wrap, padded; now rewrite <- !app_assoc. Qed.

Lemma extracted_json_fences : extracted (wrap fence_json w1 c w2) = strip c.
Proof.
  rewrite wrap_padded; unfold extracted, fenced.
  rewrite str_in_here, after_here.
  rewrite (find_none_upto _ _ padded_no_json), padded_closing.
  now apply strip_padding.
Qed.

Lemma bare_fences_no_json :
  str_in fence_json (fence ++ padded w1 c w2 ++ fence) = false.
Proof.
  pose proof padded_no_json as Hn.
  destruct padded_head as (x & s & E & H96 & H106).
  rewrite E in *.
  change fence_json with [96; 96; 96; 106; 115; 111; 110]%N in *.
  change (fence ++ (x :: s) ++ fence)
    with (96 :: 96 :: 96 :: x :: s ++ fence)%N.
  change ((x :: s) ++ fence) with (x :: s ++ fence) in Hn.
  cbn [str_in] in *.
  apply orb_false_iff in Hn as [_ Hn]; rewrite Hn.
  cbn [startswith].
  destruct (N.eqb_spec 106 x); [congruence|].
  destruct (N.eqb_spec 96 x); [congruence|].
  reflexivity.
Qed.

Lemma extracted_bare_fences : extracted (wrap fence w1 c w2) = strip c.
Proof.
  rewrite wrap_padded; unfold extracted.
  rewrite bare_fences_no_json, str_in_here, fenced_fence, after_here.
  rewrite padded_closing.
  now apply strip_padding.
Qed.

Lemma extracted_raw : extracted c = c.
Proof.
  unfold extracted; rewrite Hplain.
  destruct (str_in fence_json c) eqn:E; [|reflexivity].
  rewrite str_in_find in E.
  destruct (find fence_json c) as [[a b]|] eqn:F; [|discriminate].
  apply find_app in F.
  assert (str_in fence c = true); [|congruence].
  rewrite F; change fence_json with (fence ++ lit "json").
  rewrite <- app_assoc.
  clear; induction a as [|y a IH]; [exact (str_in_here fence _)|].
  cbn [str_in app]; rewrite IH; apply orb_true_r.
Qed.

End Wrapping.

Lemma str_in_prefix p q s : str_in (p ++ q) s = true -> str_in p s = true.
Proof.
  induction s as [|y s IH]; cbn [str_in]; intros H;
    apply orb_true_iff in H as [H|H].
  - apply startswith_prefix in H; now rewrite H.
  - discriminate.
  - apply startswith_prefix in H; now rewrite H.
  - rewrite (IH H); apply orb_true_r.
Qed.

(** Where no second "```json" marker follows the first one, the text that
    the program decodes is the stripped text between the markers. *)
Lemma extracted_strips_spec p :
  str_in fence_json (after fence_json p) = false ->
  extracted p = if str_in fence p then strip (extracted_spec p) else p.
Proof.
  intros H; unfold extracted, extracted_spec, between.
  destruct (str_in fence_json p) eqn:Hj.
  - rewrite (@str_in_prefix fence (lit "json") p Hj).
    unfold fenced; now rewrite (find_none_upto _ _ H).
  - destruct (str_in fence p); [apply fenced_fence|reflexivity].
Qed.

Lemma decode_str p : decode (VStr p) = Json.loads (extracted p).
Proof. unfold decode; rewrite clean_str; reflexivity. Qed.

(** C4 (amended).  For every content [c] that [json.loads] accepts, with
    value [v], and that holds no "```" marker, the three forms give the same
    value [v] after the clean-up and [json.loads]: [c] itself, [c] between
    a "```json" marker and a closing "```" marker, and [c] between two "```"
    markers; in the two fenced forms any whitespace (none included) may
    separate the content from the markers. *)
Theorem wrapping_forms_agree (c w1 w2 : str) (v : value) :
  Json.loads c = inr v ->
  str_in fence c = false ->
  forallb isspace w1 = true ->
  forallb isspace w2 = true ->
  decode (VStr c) = inr v /\
  decode (VStr (wrap fence_json w1 c w2)) = inr v /\
  decode (VStr (wrap fence w1 c w2)) = inr v.
Proof.
  intros Hv Hp H1 H2; rewrite !decode_str.
  rewrite extracted_raw by assumption.
  erewrite extracted_json_fences by eassumption.
  erewrite extracted_bare_fences by eassumption.
  auto using loads_strip.
Qed.

Lemma wrapping_forms_agree_witness :
  let c := dq "{'classification': 'fact', 'transformed_text': 'The sky.'}" in
  let v := VDict [(lit "classification", VStr (lit "fact"));
                  (lit "transformed_text", VStr (lit "The sky."))] in
  (Json.loads c = inr v /\ str_in fence c = false /\
   forallb isspace [10%N] = true /\ forallb isspace [] = true) /\
  decode (VStr c) = inr v /\
  decode (VStr (wrap fence_json [10%N] c [])) = inr v /\
  decode (VStr (wrap fence [10%N] c [])) = inr v.
Proof.
  intros c v; split; [repeat split|].
  apply (wrapping_forms_agree c [10%N] [] (v := v)); reflexivity.
Defined.

(** C4 as the specification words it fails on a content that holds "```"
    markers inside a string: taken raw, the program decodes the text between
    the two markers, the number 1; between fences, it decodes the beginning
    of the content up to the first inner marker, which is not JSON. *)
Lemma wrapping_forms_differ :
  let c := dq "{'a':'```1```'}" in
  Json.loads c = inr (VDict [(lit "a", VStr (lit "```1```"))]) /\
  decode (VStr c) = inr (VInt 1) /\
  decode (VStr (wrap fence_json [10%N] c [10%N]))
  = inl (JSONDecodeError (dq "{'a':'")) /\
  decode (VStr (wrap fence [10%N] c [10%N]))
  = inl (JSONDecodeError (dq "{'a':'")) /\
  decode (VStr c) <> decode (VStr (wrap fence_json [10%N] c [10%N])).
Proof.
  repeat split; try reflexivity.
  intros H; vm_compute in H; discriminate.
Qed.

(** ** The retry loop of [process_text] *)

Section Retry.

Variable rq : request.

Lemma later_later {A} evs evs' (r : run A) :
  later evs (later evs' r) = later (evs ++ evs') r.
Proof. unfold later; simpl; now rewrite app_assoc. Qed.

Lemma later_nil {A} (r : run A) : later [] r = r.
Proof. destruct r; reflexivity. Qed.

(** One rate-limit outcome: one more turn of the loop. *)
Lemma attempts_rate_limit k o script :
  is_rate_limit o = true ->
  attempts rq k (o :: script)
  = later (retry_events rq (S k)) (attempts rq (S k) script).
Proof.
  destruct o as [r|e]; simpl.
  - intros ->; reflexivity.
  - destruct e; try discriminate. intros ->; reflexivity.
Qed.

Lemma attempts_retries rs : forall k script,
  forallb is_rate_limit rs = true ->
  attempts rq k (rs ++ script)
  = later (retries rq k (length rs)) (attempts rq (k + length rs) script).
Proof.
  induction rs as [|o rs IH]; intros k script H.
  - simpl; now rewrite later_nil, Nat.add_0_r.
  - simpl in H; apply andb_true_iff in H as [Ho H].
    cbn [app length retries].
    rewrite attempts_rate_limit, IH, later_later by assumption.
    now rewrite Nat.add_succ_r.
Qed.

(** Only [raise_for_status] raises an [HTTPError]. *)
Lemma loads_exn s e : Json.loads s = inl e -> is_http e = false.
Proof.
  unfold Json.loads.
  destruct (Json.scan Json.LStart s) as [ts|]; [|intros [= <-]; reflexivity].
  destruct (Json.parse Json.PValue [] ts); [discriminate|].
  intros [= <-]; reflexivity.
Qed.

Lemma getitem_str_exn v key e : getitem_str v key = inl e -> is_http e = false.
Proof.
  destruct v; simpl; try (intros [= <-]; reflexivity).
  destruct (dict_get d key); [discriminate|intros [= <-]; reflexivity].
Qed.

Lemma getitem_int_exn v i e : getitem_int v i = inl e -> is_http e = false.
Proof.
  destruct v; simpl; try (intros [= <-]; reflexivity).
  - destruct (seq_index s i); [discriminate|intros [= <-]; reflexivity].
  - destruct (seq_index l i); [discriminate|intros [= <-]; reflexivity].
Qed.

Lemma strip_fence_exn marker v e :
  strip_fence marker v = inl e -> is_http e = false.
Proof.
  unfold strip_fence.
  destruct v; simpl; try (intros [= <-]; reflexivity).
  unfold index.
  destruct (seq_index (split marker s) 1) as [inner|]; simpl;
    [|intros [= <-]; reflexivity].
  destruct (seq_index (split fence inner) 0); simpl;
    [discriminate|intros [= <-]; reflexivity].
Qed.

Lemma clean_exn v e : clean v = inl e -> is_http e = false.
Proof.
  unfold clean.
  destruct (contains fence_json v) as [e1|[|]] eqn:E1; simpl.
  - destruct v; simpl in E1; try discriminate;
      injection E1 as <-; intros [= <-]; reflexivity.
  - apply strip_fence_exn.
  - destruct (contains fence v) as [e2|[|]] eqn:E2; simpl.
    + destruct v; simpl in E2; try discriminate;
        injection E2 as <-; intros [= <-]; reflexivity.
    + apply strip_fence_exn.
    + discriminate.
Qed.

Lemma json_loads_exn v e : json_loads v = inl e -> is_http e = false.
Proof.
  destruct v; simpl; try (intros [= <-]; reflexivity).
  apply loads_exn.
Qed.

Lemma decode_exn v e : decode v = inl e -> is_http e = false.
Proof.
  unfold decode.
  destruct (clean v) as [e1|t] eqn:E1; simpl.
  - intros [= <-]; eapply clean_exn; eauto.
  - apply json_loads_exn.
Qed.

Lemma reply_text_exn data e : reply_text data = inl e -> is_http e = false.
Proof.
  unfold reply_text.
  destruct (getitem_str data (lit "content")) as [e1|content] eqn:E1; simpl.
  - intros [= <-]; eapply getitem_str_exn; eauto.
  - destruct (getitem_int content 0) as [e2|first] eqn:E2; simpl.
    + intros [= <-]; eapply getitem_int_exn; eauto.
    + apply getitem_str_exn.
Qed.

Lemma parse_reply_exn data e : parse_reply data = inl e -> is_http e = false.
Proof.
  unfold parse_reply.
  destruct (reply_text data) as [e1|t] eqn:E1; simpl.
  - intros [= <-]; eapply reply_text_exn; eauto.
  - apply decode_exn.
Qed.

Lemma read_reply_exn r e :
  read_reply r = inl e -> e = HTTPError r \/ is_http e = false.
Proof.
  unfold read_reply, raise_for_status.
  destruct ((400 <=? status_code r)%Z && (status_code r <? 600)%Z); simpl.
  - intros [= <-]; auto.
  - unfold json.
    destruct (Json.loads (text r)) as [e1|data] eqn:E1; simpl.
    + intros [= <-]; right; eapply loads_exn; eauto.
    + intros H; right; eapply parse_reply_exn; eauto.
Qed.

Lemma not_http_not_rate_limit e :
  is_http e = false -> is_rate_limit (Raises e) = false.
Proof. destruct e; simpl; auto; discriminate. Qed.

Lemma answer_not_rate_limit o e :
  is_rate_limit o = false -> answer_of o = Raised e ->
  is_rate_limit (Raises e) = false.
Proof.
  destruct o as [r|e0]; simpl.
  - intros Hr; destruct (read_reply r) as [e1|] eqn:E; [|discriminate].
    intros [= <-]; destruct (read_reply_exn _ E) as [->|H]; auto.
    now apply not_http_not_rate_limit.
  - intros H [= <-]; exact H.
Qed.

Lemma answer_not_blocked o : answer_of o <> Blocked.
Proof.
  destruct o as [r|e]; simpl; [|discriminate].
  destruct (read_reply r); discriminate.
Qed.

(** An outcome that is not a rate limit ends the call. *)
Lemma attempts_answer k o script :
  is_rate_limit o = false ->
  attempts rq k (o :: script)
  = {| ended := answer_of o; rest := script; trace := [Post rq] |}.
Proof.
  intros Ho; pose proof (answer_not_rate_limit o) as Ha.
  destruct o as [r|e]; simpl in *.
  - rewrite Ho; destruct (read_reply r) as [e|result]; [|reflexivity].
    specialize (Ha e Ho eq_refl).
    destruct e; try reflexivity; simpl in Ha; now rewrite Ha.
  - destruct e; try reflexivity; now rewrite Ho.
Qed.

End Retry.

Lemma attempts_blocked (rq : request) rs : forall k,
  forallb is_rate_limit rs = true -> ended (attempts rq k rs) = Blocked.
Proof.
  induction rs as [|o rs IH]; intros k H; [reflexivity|].
  simpl in H; apply andb_true_iff in H as [Ho H].
  rewrite attempts_rate_limit by assumption; simpl; auto.
Qed.

(** C6.  Whatever the number of rate-limit outcomes [rs] that the service
    gives before an outcome [o] that is not one, [process_text] sends the
    same request once for each of them, prints the retry counter (1, 2, ...)
    and sleeps 15 seconds after each, and ends as [o] makes it end: it never
    ends on a rate limit, and as long as the service has given rate limits
    only, it has not returned. *)
Theorem rate_limit_is_retried (text : value) (api_key : str)
  (rs : list outcome) (o : outcome) (script : list outcome) :
  forallb is_rate_limit rs = true ->
  is_rate_limit o = false ->
  let rq := {| req_text := text; req_api_key := api_key |} in
  process_text text api_key (rs ++ o :: script)
  = {| ended := answer_of o; rest := script;
       trace := retries rq 0 (length rs) ++ [Post rq] |} /\
  answer_of o <> Blocked /\
  (forall e, answer_of o = Raised e -> is_rate_limit (Raises e) = false) /\
  ended (process_text text api_key rs) = Blocked.
Proof.
  intros Hrs Ho rq; unfold process_text; fold rq.
  rewrite attempts_retries, attempts_answer by assumption.
  repeat split.
  - apply answer_not_blocked.
  - intros e; now apply answer_not_rate_limit.
  - now apply attempts_blocked.
Qed.

(** C8.  On a response whose status is an error status (400 to 599) other
    than 429, [process_text] raises the [HTTPError] that carries this
    response, with its status and its body; it sends no further request. *)
Theorem http_error_is_raised (text : value) (api_key : str) (r : response)
  (script : list outcome) :
  is_http_error (status_code r) = true ->
  status_code r <> 429%Z ->
  let rq := {| req_text := text; req_api_key := api_key |} in
  process_text text api_key (Returns r :: script)
  = {| ended := Raised (HTTPError r); rest := script; trace := [Post rq] |} /\
  forall k, attempts rq k (Returns r :: script)
  = {| ended := Raised (HTTPError r); rest := script; trace := [Post rq] |}.
Proof.
  intros Herr H429 rq.
  assert (G : forall k, attempts rq k (Returns r :: script)
    = {| ended := Raised (HTTPError r); rest := script; trace := [Post rq] |}).
  { intros k; rewrite attempts_answer by (simpl; now apply Z.eqb_neq).
    simpl; unfold read_reply, raise_for_status.
    unfold is_http_error in Herr; rewrite Herr; reflexivity. }
  split; [apply G|exact G].
Qed.

(** ** The loop of [process_csv] *)

Lemma written_app a b :
  written (a ++ b)
  = match written b with Some t => Some t | None => written a end.
Proof.
  induction a as [|ev a IH]; simpl.
  - destruct (written b); reflexivity.
  - rewrite IH; destruct (written b); reflexivity.
Qed.

Lemma attempts_unwritten rq script : forall k,
  written (trace (attempts rq k script)) = None.
Proof.
  induction script as [|o script IH]; intros k; [reflexivity|].
  destruct (is_rate_limit o) eqn:E.
  - rewrite attempts_rate_limit by assumption.
    cbn [later trace]; now rewrite written_app, IH.
  - now rewrite attempts_answer.
Qed.

(** A script that still holds an answer: the rate limits before the first
    answer, the answer, and what follows. *)
Lemma split_answers script :
  (1 <= answers script)%nat ->
  exists rs o script',
    script = rs ++ o :: script' /\
    forallb is_rate_limit rs = true /\ is_rate_limit o = false /\
    (answers script' + 1 = answers script)%nat.
Proof.
  unfold answers; induction script as [|o script IH]; simpl; [lia|].
  destruct (is_rate_limit o) eqn:E; simpl; intros H.
  - destruct (IH H) as (rs & o' & s' & -> & Hrs & Ho & Hn).
    exists (o :: rs), o', s'; simpl; rewrite E; auto.
  - exists [], o, script; simpl; repeat split; auto; lia.
Qed.

Lemma process_text_answered text api_key script :
  (1 <= answers script)%nat ->
  let call := process_text text api_key script in
  ended call <> Blocked /\
  (answers (rest call) + 1 = answers script)%nat.
Proof.
  intros H; destruct (split_answers script H) as (rs & o & s' & -> & Hrs & Ho & Hn).
  unfold process_text; rewrite attempts_retries, attempts_answer by assumption.
  simpl; split; [apply answer_not_blocked|exact Hn].
Qed.

Lemma process_text_split text api_key rs o script :
  forallb is_rate_limit rs = true -> is_rate_limit o = false ->
  let rq := {| req_text := text; req_api_key := api_key |} in
  process_text text api_key (rs ++ o :: script)
  = {| ended := answer_of o; rest := script;
       trace := retries rq 0 (length rs) ++ [Post rq] |}.
Proof.
  intros Hrs Ho rq; unfold process_text; fold rq.
  now rewrite attempts_retries, attempts_answer by assumption.
Qed.

(** The writer of the output file. *)
Lemma write_cells_encodes cs :
  match write_cells cs with
  | inr _ => forallb encodes cs = true
  | inl _ => forallb encodes cs = false
  end.
Proof.
  induction cs as [|c cs IH]; [reflexivity|].
  cbn [write_cells forallb bind]; unfold encodes at 1 3.
  destruct (write_text c); [reflexivity|exact IH].
Qed.

Lemma writable_printable r : writable r = true -> printable r = true.
Proof.
  unfold writable, printable; cbn [cells forallb]; intros H.
  repeat (apply andb_true_iff in H as [? H]); assumption.
Qed.

Lemma forallb_writable_printable recs :
  forallb writable recs = true -> forallb printable recs = true.
Proof.
  induction recs as [|r recs IH]; simpl; [reflexivity|].
  intros H; apply andb_true_iff in H as [Hr H].
  now rewrite (writable_printable _ Hr), IH.
Qed.

(** The rows written are those of the records before the first one that
    cannot be written. *)
Lemma writerows_rows results :
  exists done todo,
    results = done ++ todo /\
    forallb writable done = true /\
    fst (writerows results) = map cells done /\
    match snd (writerows results) with
    | None => todo = []
    | Some e =>
        exists r todo', todo = r :: todo' /\ write_cells (cells r) = inl e
    end.
Proof.
  induction results as [|r results IH].
  - exists [], []; repeat split.
  - cbn [writerows].
    destruct (write_cells (cells r)) as [e|u] eqn:E.
    + exists [], (r :: results); cbn; repeat split; eauto.
    + destruct IH as (done & todo & -> & Hd & Hf & Hs).
      destruct (writerows (done ++ todo)) as [rows failure].
      cbn [fst snd] in *.
      exists (r :: done), todo; cbn [app map forallb]; rewrite Hd, Hf.
      pose proof (write_cells_encodes (cells r)) as Hw; rewrite E in Hw.
      unfold writable; rewrite Hw; repeat split; exact Hs.
Qed.

Section BatchFacts.

Variable str_exn : exn -> str.
Variable api_key : str.

Lemma has_fields_get row :
  has_fields row = true ->
  exists row_id text,
    dict_get row (lit "id") = Some row_id /\
    dict_get row (lit "text") = Some text.
Proof.
  unfold has_fields; intros H; apply andb_true_iff in H as [H1 H2].
  destruct (dict_get row (lit "id")) as [row_id|]; [|discriminate].
  destruct (dict_get row (lit "text")) as [text|]; [|discriminate].
  eauto.
Qed.

Lemma get_has_fields row row_id text :
  dict_get row (lit "id") = Some row_id ->
  dict_get row (lit "text") = Some text ->
  has_fields row = true.
Proof. unfold has_fields; now intros -> ->. Qed.

(** One turn of the loop on a row that has both columns. *)
Lemma loop_row row more results script row_id text :
  dict_get row (lit "id") = Some row_id ->
  dict_get row (lit "text") = Some text ->
  let call := process_text text api_key script in
  for_row_in_reader str_exn (Row row more) api_key results script
  = match row_records str_exn row_id text (ended call) with
    | Some (recs, l) =>
        later (Print (ProcessingID row_id) :: trace call ++ [Print l])
              (for_row_in_reader str_exn more api_key (results ++ recs)
                 (rest call))
    | None =>
        {| ended := Blocked; rest := rest call;
           trace := Print (ProcessingID row_id) :: trace call |}
    end.
Proof.
  intros Hid Htext; cbn [for_row_in_reader getitem_str].
  rewrite Hid, Htext; cbn [ret].
  destruct (ended (process_text text api_key script)) as [result|e|];
    cbn [row_records]; try reflexivity.
  destruct (success_record row_id text result) as [e|r]; [reflexivity|].
  destruct (write_text (classification r)); [|reflexivity].
  now rewrite <- app_assoc.
Qed.

Lemma success_record_fields row_id text result r :
  success_record row_id text result = inr r ->
  id r = row_id /\ original_text r = text.
Proof.
  unfold success_record.
  destruct (getitem_str result (lit "classification")); [discriminate|].
  destruct (getitem_str result (lit "transformed_text")); [discriminate|].
  intros [= <-]; auto.
Qed.

(** A row gets one record, or two when the classification of the first
    cannot be printed. *)
Lemma row_records_shape row_id text e recs l :
  row_records str_exn row_id text e = Some (recs, l) ->
  exists r,
    id r = row_id /\ original_text r = text /\
    ((recs = [r] /\ printable r = true) \/
     (exists x, recs = [r; error_record str_exn row_id text x] /\
                printable r = false)).
Proof.
  assert (Herr : forall x, printable (error_record str_exn row_id text x) = true)
    by reflexivity.
  destruct e as [result|x|]; cbn [row_records]; try discriminate.
  - destruct (success_record row_id text result) as [x|r] eqn:E.
    + intros [= <- _]; exists (error_record str_exn row_id text x).
      split; [|split; [|left; split]]; auto.
    + destruct (success_record_fields _ _ _ E) as [E1 E2].
      destruct (write_text (classification r)) as [x|u] eqn:W;
        intros [= <- _]; exists r; (split; [exact E1|split; [exact E2|]]).
      * right; exists x; split; [reflexivity|].
        unfold printable, encodes; now rewrite W.
      * left; split; [reflexivity|].
        unfold printable, encodes; now rewrite W.
  - intros [= <- _]; exists (error_record str_exn row_id text x).
    split; [|split; [|left; split]]; auto.
Qed.

Lemma row_records_some row_id text e :
  e <> Blocked ->
  exists recs l, row_records str_exn row_id text e = Some (recs, l).
Proof.
  destruct e as [result|x|]; simpl; try congruence; eauto.
  destruct (success_record row_id text result) as [x|r]; eauto.
  destruct (write_text (classification r)); eauto.
Qed.

(** An outcome whose classification can be printed gives one record. *)
Lemma row_records_speakable o row_id text recs l :
  speakable o = true ->
  row_records str_exn row_id text (answer_of o) = Some (recs, l) ->
  exists r, recs = [r] /\ id r = row_id /\ original_text r = text.
Proof.
  intros Hs H; destruct (row_records_shape _ _ _ H)
    as (r & E1 & E2 & [[-> _]|(x & -> & Hp)]); [eauto|exfalso].
  revert Hs H Hp; unfold speakable, row_records, success_record.
  destruct (answer_of o) as [result|x'|]; try discriminate.
  destruct (getitem_str result (lit "classification")) as [x'|c];
    [discriminate|].
  destruct (getitem_str result (lit "transformed_text")) as [x'|t];
    [discriminate|].
  cbn [bind ret classification]; unfold printable, encodes.
  destruct (write_text c); [discriminate|].
  intros _ [= <- _]; cbn [classification]; discriminate.
Qed.

Lemma written_print l evs : written (Print l :: evs) = written evs.
Proof. simpl; destruct (written evs); reflexivity. Qed.

Lemma written_row row_id text script l :
  written (Print (ProcessingID row_id)
           :: trace (process_text text api_key script) ++ [Print l]) = None.
Proof.
  rewrite written_print, written_app; cbn [written].
  apply attempts_unwritten.
Qed.

Lemma loop_unwritten f : forall results script,
  written (trace (for_row_in_reader str_exn f api_key results script)) = None.
Proof.
  induction f as [|row more IH|e]; intros results script; try reflexivity.
  destruct (dict_get row (lit "text")) as [text|] eqn:Htext;
    [|cbn [for_row_in_reader getitem_str]; rewrite Htext; reflexivity].
  destruct (dict_get row (lit "id")) as [row_id|] eqn:Hid;
    [|cbn [for_row_in_reader getitem_str]; rewrite Htext, Hid; reflexivity].
  rewrite (loop_row _ _ _ _ Hid Htext).
  destruct (row_records _ _ _ _) as [[recs l]|].
  - cbn [later trace]; now rewrite written_app, IH, written_row.
  - cbn [trace]; rewrite written_print; apply attempts_unwritten.
Qed.

Lemma records_of_nil : records_of [] [].
Proof. split; [reflexivity|]. intros [|k] row; discriminate. Qed.

Lemma records_of_cons row rws r recs :
  dict_get row (lit "id") = Some (id r) ->
  dict_get row (lit "text") = Some (original_text r) ->
  records_of rws recs -> records_of (row :: rws) (r :: recs).
Proof.
  intros Hid Htext [Hlen Hnth]; split; [simpl; now rewrite Hlen|].
  intros [|k] row'; simpl.
  - intros [= <-]; eauto.
  - apply Hnth.
Qed.

(** The rows that have both columns, as long as the script answers: the
    loop goes on after them; it has appended one record for each when the
    classifications of the replies can be printed. *)
Lemma loop_prefix f rws : forall results script,
  forallb has_fields rws = true ->
  (length rws <= answers script)%nat ->
  exists recs script' tr,
    for_row_in_reader str_exn (rows_then rws f) api_key results script
    = later tr (for_row_in_reader str_exn f api_key (results ++ recs) script') /\
    written tr = None /\
    (forallb speakable script = true -> records_of rws recs).
Proof.
  induction rws as [|row rws IH]; intros results script Hf Hn.
  - exists [], script, []; rewrite app_nil_r, later_nil.
    split; [reflexivity|split; [reflexivity|intros _; apply records_of_nil]].
  - simpl in Hf; apply andb_true_iff in Hf as [Hrow Hf]; simpl in Hn.
    destruct (has_fields_get _ Hrow) as (row_id & text & Hid & Htext).
    destruct (split_answers script) as (rs & o & s' & -> & Hrs & Ho & Ha);
      [lia|].
    cbn [rows_then]; rewrite (loop_row _ _ _ _ Hid Htext).
    pose proof (@process_text_split text api_key rs o s' Hrs Ho) as Hcall.
    cbv zeta in Hcall.
    assert (He : ended (process_text text api_key (rs ++ o :: s')) = answer_of o)
      by now rewrite Hcall.
    assert (Hr : rest (process_text text api_key (rs ++ o :: s')) = s')
      by now rewrite Hcall.
    rewrite He, Hr.
    destruct (row_records_some row_id text (answer_not_blocked o))
      as (g & l & E); rewrite E.
    destruct (IH (results ++ g) s' Hf) as (recs & script' & tr & -> & Htr & Hrecs);
      [lia|].
    exists (g ++ recs), script'; eexists.
    rewrite later_later, (app_assoc results g recs).
    split; [reflexivity|split].
    + now rewrite written_app, Htr, written_row.
    + intros Hs; rewrite forallb_app in Hs; cbn [forallb] in Hs.
      apply andb_true_iff in Hs as [_ Hs].
      apply andb_true_iff in Hs as [Hso Hs].
      destruct (row_records_speakable _ _ _ Hso E) as (r & -> & E1 & E2).
      apply records_of_cons; [congruence|congruence|auto].
Qed.

(** A loop that returns has read the whole file, every row of which has
    both columns, and has appended one record for each row, or two for the
    rows whose classification could not be printed. *)
Lemma loop_returned f : forall results script results',
  ended (for_row_in_reader str_exn f api_key results script) = Returned results' ->
  exists rws recs,
    f = reader_of rws /\ results' = results ++ recs /\
    forallb has_fields rws = true /\
    (length rws <= length recs <= 2 * length rws)%nat /\
    (forallb printable recs = true -> records_of rws recs) /\
    (length recs = length rws -> forallb printable recs = true).
Proof.
  induction f as [|row more IH|e]; intros results script results'.
  - simpl; intros [= <-]; exists [], []; rewrite app_nil_r.
    split; [reflexivity|split; [reflexivity|split; [reflexivity|]]].
    split; [simpl; lia|split; [intros _; apply records_of_nil|reflexivity]].
  - destruct (dict_get row (lit "text")) as [text|] eqn:Htext;
      [|cbn [for_row_in_reader getitem_str]; rewrite Htext; discriminate].
    destruct (dict_get row (lit "id")) as [row_id|] eqn:Hid;
      [|cbn [for_row_in_reader getitem_str]; rewrite Htext, Hid;
        discriminate].
    rewrite (loop_row _ _ _ _ Hid Htext).
    destruct (row_records _ _ _ _) as [[g l]|] eqn:E; [|discriminate].
    cbn [later ended]; intros H.
    destruct (IH _ _ _ H) as (rws & recs & -> & -> & Hf & Hlen & Hrecs & Hp).
    exists (row :: rws), (g ++ recs); rewrite <- app_assoc.
    split; [reflexivity|split; [reflexivity|]].
    split; [cbn [forallb]; now rewrite (get_has_fields _ Hid Htext)|].
    destruct (row_records_shape _ _ _ E)
      as (r & E1 & E2 & [[-> Hr]|(x & -> & Hr)]);
      cbn [app length forallb]; rewrite Hr.
    + split; [lia|split].
      * intros Hall; apply records_of_cons; [congruence|congruence|auto].
      * intros Hl; apply Hp; lia.
    + split; [lia|split; [discriminate|lia]].
  - discriminate.
Qed.

Lemma reader_of_inj rws : forall rws', reader_of rws = reader_of rws' -> rws = rws'.
Proof.
  unfold reader_of; induction rws as [|row rws IH]; intros [|row' rws'];
    simpl; try discriminate; auto.
  intros [= -> H]; f_equal; auto.
Qed.

End BatchFacts.

(** ** The batch *)

Lemma rows_then_fails rws e rws' : rows_then rws (Fails e) <> reader_of rws'.
Proof.
  revert rws'; induction rws as [|row rws IH]; intros [|row' rws'];
    try discriminate.
  unfold reader_of; simpl; intros [= _ H]; exact (IH _ H).
Qed.

Lemma rows_then_nth good bad more : forall rws,
  rows_then good (Row bad more) = reader_of rws ->
  nth_error rws (length good) = Some bad.
Proof.
  induction good as [|row good IH]; intros [|row' rws]; try discriminate.
  - unfold reader_of; simpl; now intros [= -> _].
  - unfold reader_of; simpl; intros [= _ H]; exact (IH _ H).
Qed.

Lemma write_text_exn v e :
  write_text v = inl e -> exists s, e = UnicodeEncodeError s.
Proof.
  destruct v; try discriminate; cbn [write_text]; unfold encode_utf8.
  destruct (existsb is_surrogate s); [|discriminate].
  intros [= <-]; eauto.
Qed.

Lemma write_cells_exn cs e :
  write_cells cs = inl e -> exists s, e = UnicodeEncodeError s.
Proof.
  induction cs as [|c cs IH]; [discriminate|].
  cbn [write_cells bind]; destruct (write_text c) as [x|u] eqn:E; [|exact IH].
  intros [= <-]; exact (write_text_exn _ E).
Qed.

(** What [process_csv] does around the loop. *)
Section CsvFacts.

Variable str_exn : exn -> str.
Variable fs : files.
Variable api_key : str.
Variable script : list outcome.

(** As long as the loop has not returned, nothing is written. *)
Lemma process_csv_unfinished f :
  input_file fs = inr f ->
  (forall results,
     ended (for_row_in_reader str_exn f api_key [] script) <> Returned results) ->
  written (trace (process_csv str_exn fs api_key script)) = None /\
  ended (process_csv str_exn fs api_key script) <> Returned tt /\
  (forall e, ended (for_row_in_reader str_exn f api_key [] script) = Raised e ->
     ended (process_csv str_exn fs api_key script) = Raised e).
Proof.
  intros Hf Hn; unfold process_csv; rewrite Hf.
  pose proof (loop_unwritten str_exn api_key f [] script) as Hl.
  destruct (ended (for_row_in_reader str_exn f api_key [] script))
    as [results|e|]; [exfalso; exact (Hn results eq_refl)| |];
    cbn [ended trace]; (split; [exact Hl|split; [discriminate|]]).
  - intros e' [= ->]; reflexivity.
  - intros e; discriminate.
Qed.

(** When the loop has returned, the rows written are those of the records
    before the first one that cannot be encoded. *)
Lemma process_csv_writes f results :
  input_file fs = inr f -> output_file_error fs = None ->
  ended (for_row_in_reader str_exn f api_key [] script) = Returned results ->
  let loop := for_row_in_reader str_exn f api_key [] script in
  exists done todo,
    results = done ++ todo /\ forallb writable done = true /\
    ((todo = [] /\
      process_csv str_exn fs api_key script
      = {| ended := Returned tt; rest := rest loop;
           trace := trace loop
                    ++ [WriteOutput (output_table done); Print Complete] |}) \/
     (exists r todo' s,
        todo = r :: todo' /\
        write_cells (cells r) = inl (UnicodeEncodeError s) /\
        process_csv str_exn fs api_key script
        = {| ended := Raised (UnicodeEncodeError s); rest := rest loop;
             trace := trace loop ++ [WriteOutput (output_table done)] |})).
Proof.
  intros Hf Ho Hl loop; subst loop; unfold process_csv; rewrite Hf, Hl, Ho.
  destruct (writerows_rows results) as (done & todo & E & Hd & Hr & Hs).
  destruct (writerows results) as [rows failure]; cbn [fst snd] in Hr, Hs.
  subst rows; exists done, todo; split; [exact E|split; [exact Hd|]].
  destruct failure as [e|].
  - destruct Hs as (r & todo' & -> & Hw).
    destruct (write_cells_exn _ Hw) as [s ->].
    right; exists r, todo', s; auto.
  - left; auto.
Qed.

Lemma process_csv_returned :
  ended (process_csv str_exn fs api_key script) = Returned tt ->
  exists f results,
    input_file fs = inr f /\
    ended (for_row_in_reader str_exn f api_key [] script) = Returned results /\
    forallb writable results = true /\
    trace (process_csv str_exn fs api_key script)
    = trace (for_row_in_reader str_exn f api_key [] script)
      ++ [WriteOutput (output_table results); Print Complete].
Proof.
  intros Hr.
  destruct (input_file fs) as [e|f] eqn:Hf;
    [unfold process_csv in Hr; rewrite Hf in Hr; discriminate|].
  destruct (ended (for_row_in_reader str_exn f api_key [] script))
    as [results|e|] eqn:Hl;
    try (unfold process_csv in Hr; rewrite Hf, Hl in Hr; discriminate).
  destruct (output_file_error fs) as [e|] eqn:Ho;
    [unfold process_csv in Hr; rewrite Hf, Hl, Ho in Hr; discriminate|].
  destruct (process_csv_writes Hf Ho Hl)
    as (done & todo & E & Hd & [[-> H]|(r & todo' & s & _ & _ & H)]);
    rewrite H in Hr; [|discriminate].
  rewrite app_nil_r in E; subst done.
  exists f, results; rewrite H; auto.
Qed.

Lemma process_csv_unwritable f e :
  input_file fs = inr f -> output_file_error fs = Some e ->
  written (trace (process_csv str_exn fs api_key script)) = None /\
  ended (process_csv str_exn fs api_key script) <> Returned tt.
Proof.
  intros Hf Ho; unfold process_csv; rewrite Hf, Ho.
  pose proof (loop_unwritten str_exn api_key f [] script) as Hl.
  destruct (ended (for_row_in_reader str_exn f api_key [] script));
    cbn [ended trace]; split; auto; discriminate.
Qed.

End CsvFacts.


(** The example of the specification: one row, a service that answers at
    once. *)
Example sky_example :
  process_csv class_name
    {| input_file := inr (reader_of [sky_row]); output_file_error := None |}
    (lit "key") [Returns (ok_response sky_body)]
  = {| ended := Returned tt; rest := [];
       trace :=
         [Print (ProcessingID (VStr (lit "1")));
          Post {| req_text := VStr (lit "The sky is blue.");
                  req_api_key := lit "key" |};
          Print (Classification (VStr (lit "fact")));
          WriteOutput [fieldnames; cells sky_record];
          Print Complete] |}.
Proof. reflexivity. Qed.

(** The other example of the specification: a reply that is not JSON gives
    an [ERROR] record, and the next row is not affected. *)
Example prose_example :
  written (trace (process_csv class_name
    {| input_file := inr (reader_of [sky_row; sky_row]);
       output_file_error := None |}
    (lit "key") [Returns (ok_response prose_body);
                 Returns (ok_response sky_body)]))
  = Some [fieldnames;
          [VStr (lit "1"); VStr (lit "The sky is blue.");
           VStr (lit "ERROR"); VStr (lit "JSONDecodeError")];
          cells sky_record].
Proof. reflexivity. Qed.




(** C2.  When [process_text] raises [e] on a row, the loop appends for this
    row the record whose [classification] is the text ERROR and whose
    [transformed_text] is the message of [e], and goes on with the next rows
    on what remains of the script. *)
Theorem failed_row_is_recorded (str_exn : exn -> str) (row : dict)
  (more : reader) (api_key : str) (results : list record)
  (script : list outcome) (row_id text : value) (e : exn) :
  dict_get row (lit "id") = Some row_id ->
  dict_get row (lit "text") = Some text ->
  ended (process_text text api_key script) = Raised e ->
  let call := process_text text api_key script in
  for_row_in_reader str_exn (Row row more) api_key results script
  = later (Print (ProcessingID row_id) :: trace call
           ++ [Print (Error (str_exn e))])
      (for_row_in_reader str_exn more api_key
         (results ++ [{| id := row_id; original_text := text;
                         classification := VStr (lit "ERROR");
                         transformed_text := VStr (str_exn e) |}])
         (rest call)).
Proof.
  intros Hid Htext He call.
  rewrite (loop_row str_exn api_key _ _ _ _ Hid Htext).
  fold call; subst call; rewrite He; reflexivity.
Qed.

Lemma failed_row_is_recorded_witness :
  (dict_get sky_row (lit "id") = Some (VStr (lit "1")) /\
   dict_get sky_row (lit "text") = Some (VStr (lit "The sky is blue.")) /\
   ended (process_text (VStr (lit "The sky is blue.")) (lit "key")
            [Returns server_error])
   = Raised (HTTPError server_error)) /\
  ended (for_row_in_reader class_name (Row sky_row Eof) (lit "key") []
           [Returns server_error])
  = Returned [{| id := VStr (lit "1");
                 original_text := VStr (lit "The sky is blue.");
                 classification := VStr (lit "ERROR");
                 transformed_text := VStr (lit "HTTPError") |}].
Proof.
  split; [repeat split|].
  rewrite (failed_row_is_recorded class_name sky_row Eof (lit "key") []
             [Returns server_error] (row_id := VStr (lit "1"))
             (text := VStr (lit "The sky is blue."))
             (e := HTTPError server_error)); reflexivity.
Defined.

(** C7.  A row for which the service gives a rate limit twice and then the
    reply [r], and the same row when the service gives [r] at once: in both
    runs the loop appends the same record [rec] (followed in both, when the
    classification of [rec] cannot be printed, by the same ERROR record of
    the [print] that raised) and goes on in the same way; the first run
    differs from the second by two more requests, two lines about the rate
    limit and two sleeps of 15 seconds. *)
Theorem rate_limited_twice_same_record (str_exn : exn -> str) (row : dict)
  (more : reader) (api_key : str) (results : list record)
  (r1 r2 r : response) (script : list outcome)
  (row_id text result : value) (rec : record) :
  dict_get row (lit "id") = Some row_id ->
  dict_get row (lit "text") = Some text ->
  status_code r1 = 429%Z -> status_code r2 = 429%Z ->
  status_code r <> 429%Z ->
  read_reply r = inr result ->
  success_record row_id text result = inr rec ->
  let rq := {| req_text := text; req_api_key := api_key |} in
  let appended :=
    match write_text (classification rec) with
    | inr _ => [rec]
    | inl e => [rec; error_record str_exn row_id text e]
    end in
  let said :=
    match write_text (classification rec) with
    | inr _ => Print (Classification (classification rec))
    | inl e => Print (Error (str_exn e))
    end in
  let next :=
    for_row_in_reader str_exn more api_key (results ++ appended) script in
  for_row_in_reader str_exn (Row row more) api_key results
    (Returns r1 :: Returns r2 :: Returns r :: script)
  = later (Print (ProcessingID row_id)
           :: retry_events rq 1 ++ retry_events rq 2 ++ [Post rq; said]) next
  /\
  for_row_in_reader str_exn (Row row more) api_key results
    (Returns r :: script)
  = later [Print (ProcessingID row_id); Post rq; said] next.
Proof.
  intros Hid Htext H1 H2 H3 Hr Hrec rq appended said next.
  subst appended said next.
  assert (Ho : is_rate_limit (Returns r) = false)
    by (simpl; now apply Z.eqb_neq).
  assert (Hrs : forallb is_rate_limit [Returns r1; Returns r2] = true)
    by (simpl; now rewrite H1, H2).
  rewrite !(loop_row str_exn api_key _ _ _ _ Hid Htext).
  unfold process_text; fold rq.
  change (Returns r1 :: Returns r2 :: Returns r :: script)
    with ([Returns r1; Returns r2] ++ Returns r :: script).
  rewrite attempts_retries, !attempts_answer by assumption.
  cbn [later ended rest trace answer_of]; rewrite Hr.
  cbn [row_records]; rewrite Hrec.
  destruct (write_text (classification rec)); split; reflexivity.
Qed.

Lemma rate_limited_twice_same_record_witness :
  let rq := {| req_text := VStr (lit "The sky is blue.");
               req_api_key := lit "key" |} in
  (dict_get sky_row (lit "id") = Some (VStr (lit "1")) /\
   dict_get sky_row (lit "text") = Some (VStr (lit "The sky is blue.")) /\
   status_code too_many_requests = 429%Z /\
   status_code (ok_response sky_body) <> 429%Z /\
   read_reply (ok_response sky_body) = inr sky_result /\
   success_record (VStr (lit "1")) (VStr (lit "The sky is blue.")) sky_result
   = inr sky_record) /\
  for_row_in_reader class_name (Row sky_row Eof) (lit "key") []
    [Returns too_many_requests; Returns too_many_requests;
     Returns (ok_response sky_body)]
  = {| ended := Returned [sky_record]; rest := [];
       trace := Print (ProcessingID (VStr (lit "1")))
                :: retry_events rq 1 ++ retry_events rq 2
                ++ [Post rq; Print (Classification (VStr (lit "fact")))] |} /\
  for_row_in_reader class_name (Row sky_row Eof) (lit "key") []
    [Returns (ok_response sky_body)]
  = {| ended := Returned [sky_record]; rest := [];
       trace := [Print (ProcessingID (VStr (lit "1"))); Post rq;
                 Print (Classification (VStr (lit "fact")))] |}.
Proof.
  intros rq; split; [repeat split; try reflexivity; discriminate|].
  destruct (rate_limited_twice_same_record class_name sky_row Eof
              (lit "key") [] too_many_requests too_many_requests
              (ok_response sky_body) []
              (row_id := VStr (lit "1"))
              (text := VStr (lit "The sky is blue."))
              (result := sky_result) (rec := sky_record))
    as [E1 E2]; try reflexivity; try discriminate.
  rewrite E1, E2; split; reflexivity.
Defined.

Lemma rate_limit_is_retried_witness :
  let text := VStr (lit "The sky is blue.") in
  let rq := {| req_text := text; req_api_key := lit "key" |} in
  let rs := [Returns too_many_requests; Returns too_many_requests;
             Returns too_many_requests] in
  (forallb is_rate_limit rs = true /\
   is_rate_limit (Returns (ok_response sky_body)) = false) /\
  process_text text (lit "key") (rs ++ [Returns (ok_response sky_body)])
  = {| ended := Returned sky_result; rest := [];
       trace := [Post rq; Print (RateLimitHit 1); Sleep 15;
                 Post rq; Print (RateLimitHit 2); Sleep 15;
                 Post rq; Print (RateLimitHit 3); Sleep 15;
                 Post rq] |} /\
  ended (process_text text (lit "key") rs) = Blocked.
Proof.
  intros text rq rs; split; [split; reflexivity|].
  destruct (rate_limit_is_retried text (lit "key") rs
              (Returns (ok_response sky_body)) [])
    as (E & _ & _ & B); try reflexivity.
  rewrite E, B; split; reflexivity.
Defined.

Lemma http_error_is_raised_witness :
  (is_http_error (status_code server_error) = true /\
   status_code server_error <> 429%Z) /\
  process_text VNone (lit "key") [Returns server_error]
  = {| ended := Raised (HTTPError server_error); rest := [];
       trace := [Post {| req_text := VNone; req_api_key := lit "key" |}] |}.
Proof.
  split; [split; [reflexivity|discriminate]|].
  apply (http_error_is_raised VNone (lit "key") server_error []);
    [reflexivity|discriminate].
Defined.

(** C5 (amended).  On a response that is neither a rate limit nor an error
    status, whose body is JSON and gives the payload [p]: [process_text]
    raises the error of [json.loads] when the text extracted from [p] is not
    JSON; when it is JSON, [process_text] returns the value as it is,
    without looking for the two fields.  It is the loop of [process_csv]
    that looks them up: when a lookup raises [e], the row gets the ERROR
    record with the message of [e]. *)
Theorem fields_are_looked_up_by_the_loop (str_exn : exn -> str)
  (r : response) (data : value) (p : str) (text : value) (api_key : str)
  (script : list outcome) :
  status_code r <> 429%Z ->
  is_http_error (status_code r) = false ->
  json r = inr data ->
  reply_text data = inr (VStr p) ->
  let rq := {| req_text := text; req_api_key := api_key |} in
  let call := process_text text api_key (Returns r :: script) in
  (forall e, Json.loads (extracted p) = inl e -> ended call = Raised e) /\
  (forall result, Json.loads (extracted p) = inr result ->
     ended call = Returned result /\
     forall row more results row_id e,
       dict_get row (lit "id") = Some row_id ->
       dict_get row (lit "text") = Some text ->
       success_record row_id text result = inl e ->
       for_row_in_reader str_exn (Row row more) api_key results
         (Returns r :: script)
       = later [Print (ProcessingID row_id); Post rq;
                Print (Error (str_exn e))]
           (for_row_in_reader str_exn more api_key
              (results ++ [error_record str_exn row_id text e]) script)).
Proof.
  intros H429 Herr Hjson Htext rq call.
  assert (Ho : is_rate_limit (Returns r) = false)
    by (simpl; now apply Z.eqb_neq).
  assert (Hread : read_reply r = Json.loads (extracted p)).
  { unfold read_reply, raise_for_status.
    unfold is_http_error in Herr; rewrite Herr; cbn [bind ret].
    rewrite Hjson; cbn [bind]; unfold parse_reply.
    rewrite Htext; cbn [bind]; apply decode_str. }
  assert (Hcall : call = {| ended := answer_of (Returns r); rest := script;
                            trace := [Post rq] |})
    by (apply attempts_answer; exact Ho).
  split.
  - intros e He; rewrite Hcall; simpl; now rewrite Hread, He.
  - intros result Hres; split.
    + rewrite Hcall; simpl; now rewrite Hread, Hres.
    + intros row more results row_id e Hid Htxt Hrec.
      rewrite (loop_row str_exn api_key _ _ _ _ Hid Htxt).
      fold call; rewrite Hcall; cbn [ended rest trace answer_of].
      rewrite Hread, Hres; cbn [row_records]; rewrite Hrec; reflexivity.
Qed.

Lemma fields_are_looked_up_by_the_loop_witness :
  let r := ok_response empty_object_body in
  let text := VStr (lit "The sky is blue.") in
  (status_code r <> 429%Z /\ is_http_error (status_code r) = false /\
   json r = inr (VDict [(lit "content",
                         VList [VDict [(lit "text", VStr (lit "{}"))]])]) /\
   Json.loads (extracted (lit "{}")) = inr (VDict [])) /\
  ended (process_text text (lit "key") [Returns r]) = Returned (VDict []) /\
  ended (for_row_in_reader class_name (Row sky_row Eof) (lit "key") []
           [Returns r])
  = Returned [{| id := VStr (lit "1"); original_text := text;
                 classification := VStr (lit "ERROR");
                 transformed_text := VStr (lit "KeyError") |}].
Proof.
  intros r text; split; [repeat split; try reflexivity; discriminate|].
  destruct (fields_are_looked_up_by_the_loop class_name r
              (data := VDict [(lit "content",
                        VList [VDict [(lit "text", VStr (lit "{}"))]])])
              (p := lit "{}") text (lit "key") [])
    as [_ H]; try reflexivity; try discriminate.
  destruct (H (VDict []) eq_refl) as [E1 E2]; split; [exact E1|].
  rewrite (E2 sky_row Eof [] (VStr (lit "1"))
             (KeyError (VStr (lit "classification"))));
    reflexivity.
Defined.

(** C5 as the specification words it fails: the reply below is a success,
    its payload is the empty JSON object, and [process_text] returns this
    object, which has neither field. *)
Lemma process_text_returns_without_fields :
  let result := VDict [] in
  ended (process_text (VStr (lit "The sky is blue.")) (lit "key")
           [Returns (ok_response empty_object_body)])
  = Returned result /\
  getitem_str result (lit "classification")
  = inl (KeyError (VStr (lit "classification"))) /\
  getitem_str result (lit "transformed_text")
  = inl (KeyError (VStr (lit "transformed_text"))).
Proof. repeat split. Qed.

(** C9.  [process_csv] writes the output file after the loop, and only
    then: when the file holds anything, the whole input has been read, the
    loop has returned its records [results], nothing was written during the
    loop, and what the file holds is the header [id], [original_text],
    [classification], [transformed_text] followed by records of [results]
    in their order: all of them, one for each row, when [process_csv]
    returns; those before the first record that UTF-8 cannot encode when
    the writer raises on it.  Once the loop has returned, the file is
    written if it can be opened.  When opening the input file raises [e],
    [process_csv] raises [e] at once; when reading it raises [e] after the
    rows [rws], [process_csv] does not return and raises [e] as soon as the
    rows before are done; in both cases the output file is not written. *)
Theorem output_is_written_after_the_loop (str_exn : exn -> str) (fs : files)
  (api_key : str) (script : list outcome) :
  let run := process_csv str_exn fs api_key script in
  (forall t, written (trace run) = Some t ->
     exists rws results done todo,
       let loop :=
         for_row_in_reader str_exn (reader_of rws) api_key [] script in
       input_file fs = inr (reader_of rws) /\
       ended loop = Returned results /\
       written (trace loop) = None /\
       results = done ++ todo /\
       t = [VStr (lit "id"); VStr (lit "original_text");
            VStr (lit "classification"); VStr (lit "transformed_text")]
           :: map (fun r => [id r; original_text r; classification r;
                             transformed_text r]) done /\
       ((todo = [] /\ ended run = Returned tt /\ records_of rws results /\
         trace run = trace loop ++ [WriteOutput t; Print Complete]) \/
        (exists r todo' s,
           todo = r :: todo' /\ writable r = false /\
           ended run = Raised (UnicodeEncodeError s) /\
           trace run = trace loop ++ [WriteOutput t]))) /\
  (forall f results,
     input_file fs = inr f -> output_file_error fs = None ->
     ended (for_row_in_reader str_exn f api_key [] script) = Returned results ->
     exists t, written (trace run) = Some t) /\
  (forall e, input_file fs = inl e ->
     run = {| ended := Raised e; rest := script; trace := [] |}) /\
  (forall rws e, input_file fs = inr (rows_then rws (Fails e)) ->
     written (trace run) = None /\
     ended run <> Returned tt /\
     (forallb has_fields rws = true ->
      (length rws <= answers script)%nat ->
      ended run = Raised e)).
Proof.
  intros run; subst run; split; [|split; [|split]].
  - intros t Ht.
    destruct (input_file fs) as [e|f] eqn:Hf;
      [unfold process_csv in Ht; rewrite Hf in Ht; discriminate|].
    destruct (ended (for_row_in_reader str_exn f api_key [] script))
      as [results|e|] eqn:Hl.
    2,3: destruct (@process_csv_unfinished str_exn fs api_key script f Hf)
           as (Hw & _); [intros results; rewrite Hl; discriminate|];
         rewrite Hw in Ht; discriminate.
    destruct (output_file_error fs) as [e|] eqn:Ho.
    { destruct (@process_csv_unwritable str_exn fs api_key script f e Hf Ho)
        as [Hw _].
      rewrite Hw in Ht; discriminate. }
    destruct (loop_returned _ _ _ _ _ Hl)
      as (rws & recs & -> & E & _ & _ & Hrecs & _).
    cbn [app] in E; subst recs.
    destruct (@process_csv_writes str_exn fs api_key script _ _ Hf Ho Hl)
      as (done & todo & Er & Hd & [[-> H]|(r & todo' & s & -> & Hw & H)]);
      rewrite H in Ht |- *; cbn [ended trace] in Ht |- *;
      rewrite written_app in Ht; cbn in Ht; injection Ht as <-;
      exists rws, results, done; eexists;
      (split; [reflexivity|split; [exact Hl|split; [apply loop_unwritten|]]]);
      (split; [exact Er|split; [reflexivity|]]).
    + left; split; [reflexivity|split; [reflexivity|split; [|reflexivity]]].
      rewrite app_nil_r in Er; subst done.
      apply Hrecs, forallb_writable_printable, Hd.
    + right; exists r, todo', s.
      split; [reflexivity|split; [|split; reflexivity]].
      pose proof (write_cells_encodes (cells r)) as He; rewrite Hw in He.
      exact He.
  - intros f results Hf Ho Hl.
    destruct (@process_csv_writes str_exn fs api_key script _ _ Hf Ho Hl)
      as (done & todo & _ & _ & [[_ H]|(r & todo' & s & _ & _ & H)]);
      rewrite H; cbn [trace]; rewrite written_app; cbn; eauto.
  - intros e He; unfold process_csv; now rewrite He.
  - intros rws e Hf.
    destruct (@process_csv_unfinished str_exn fs api_key script _ Hf)
      as (Hw & Hn & Hr).
    { intros results Hl.
      destruct (loop_returned _ _ _ _ _ Hl) as (rws' & _ & E & _).
      exact (rows_then_fails _ _ _ E). }
    split; [exact Hw|split; [exact Hn|]].
    intros Hrows Hlen; apply Hr.
    destruct (loop_prefix str_exn api_key (Fails e) rws [] script Hrows Hlen)
      as (recs & script' & tr & -> & _); reflexivity.
Qed.

Lemma output_is_written_after_the_loop_witness :
  let missing := {| input_file := inl (OSError (lit "No such file"));
                    output_file_error := None |} in
  let broken := {| input_file :=
                     inr (rows_then [sky_row]
                            (Fails (UnicodeDecodeError (lit "invalid byte"))));
                   output_file_error := None |} in
  let good := {| input_file := inr (reader_of [sky_row; sky_row; sky_row]);
                 output_file_error := None |} in
  let script := [Returns (ok_response sky_body)] in
  let cut := [Returns (ok_response sky_body);
              Returns (ok_response unwritable_body);
              Returns (ok_response sky_body)] in
  process_csv class_name missing (lit "key") script
  = {| ended := Raised (OSError (lit "No such file")); rest := script;
       trace := [] |} /\
  (ended (process_csv class_name broken (lit "key") script)
   = Raised (UnicodeDecodeError (lit "invalid byte")) /\
   written (trace (process_csv class_name broken (lit "key") script)) = None) /\
  (ended (for_row_in_reader class_name (reader_of [sky_row; sky_row; sky_row])
            (lit "key") [] cut)
   = Returned [sky_record; unwritable_record; sky_record] /\
   written (trace (process_csv class_name good (lit "key") cut))
   = Some [fieldnames; cells sky_record] /\
   exists s, ended (process_csv class_name good (lit "key") cut)
             = Raised (UnicodeEncodeError s)).
Proof.
  intros missing broken good script cut; split; [|split].
  - destruct (output_is_written_after_the_loop class_name missing (lit "key")
                script) as (_ & _ & H & _).
    apply H; reflexivity.
  - destruct (output_is_written_after_the_loop class_name broken (lit "key")
                script) as (_ & _ & _ & H).
    destruct (H [sky_row] (UnicodeDecodeError (lit "invalid byte")) eq_refl)
      as (Hw & _ & He).
    split; [apply He; [reflexivity|vm_compute; lia]|exact Hw].
  - destruct (output_is_written_after_the_loop class_name good (lit "key")
                cut) as (H & _).
    destruct (H [fieldnames; cells sky_record] eq_refl)
      as (rws & results & done & todo & _ & _ & _ & _ & _ & He).
    split; [reflexivity|split; [reflexivity|]].
    destruct He as [(_ & He & _)|(r & todo' & s & _ & _ & He & _)];
      [discriminate He|].
    exists s; exact He.
Defined.

(** C10.  When a row lacks the column [text] or the column [id], the lookup
    raises a [KeyError] before the [try] block: for this row the loop sends
    no request, prints nothing and appends no record, and the error leaves
    [process_csv], which does not return and does not write the output file,
    whatever the rows before gave. *)
Theorem missing_column_aborts (str_exn : exn -> str) (fs : files)
  (api_key : str) (script : list outcome) (good : list dict) (bad : dict)
  (more : reader) :
  input_file fs = inr (rows_then good (Row bad more)) ->
  forallb has_fields good = true ->
  has_fields bad = false ->
  let run := process_csv str_exn fs api_key script in
  let e := KeyError (VStr (missing_key bad)) in
  dict_get bad (missing_key bad) = None /\
  (forall results script',
     for_row_in_reader str_exn (Row bad more) api_key results script'
     = {| ended := Raised e; rest := script'; trace := [] |}) /\
  written (trace run) = None /\
  ended run <> Returned tt /\
  ((length good <= answers script)%nat -> ended run = Raised e).
Proof.
  intros Hf Hgood Hbad run e; subst run e.
  assert (Hkey : dict_get bad (missing_key bad) = None).
  { unfold missing_key; unfold has_fields in Hbad.
    destruct (dict_get bad (lit "text")) eqn:Et; cbn [is_none]; auto.
    destruct (dict_get bad (lit "id")) eqn:Ei; [discriminate|reflexivity]. }
  assert (Hrow : forall results script',
    for_row_in_reader str_exn (Row bad more) api_key results script'
    = {| ended := Raised (KeyError (VStr (missing_key bad)));
         rest := script'; trace := [] |}).
  { intros results script'; cbn [for_row_in_reader getitem_str].
    revert Hkey; unfold missing_key.
    destruct (dict_get bad (lit "text")) eqn:Et; cbn [is_none].
    - intros ->; reflexivity.
    - reflexivity. }
  destruct (@process_csv_unfinished str_exn fs api_key script _ Hf)
    as (Hw & Hn & Hr).
  { intros results Hl.
    destruct (loop_returned _ _ _ _ _ Hl) as (rws & recs & E & _ & Hrws & _).
    apply rows_then_nth, nth_error_In in E.
    rewrite forallb_forall in Hrws; rewrite (Hrws _ E) in Hbad.
    discriminate. }
  split; [exact Hkey|split; [exact Hrow|split; [exact Hw|split; [exact Hn|]]]].
  intros Hlen; apply Hr.
  destruct (loop_prefix str_exn api_key (Row bad more) good [] script
              Hgood Hlen) as (recs & script' & tr & -> & _).
  cbn [later ended]; now rewrite Hrow.
Qed.

Lemma missing_column_aborts_witness :
  let fs := {| input_file := inr (reader_of [sky_row; textless_row; sky_row]);
               output_file_error := None |} in
  let script := [Returns (ok_response sky_body);
                 Returns (ok_response sky_body)] in
  (input_file fs = inr (rows_then [sky_row] (Row textless_row
                                               (reader_of [sky_row]))) /\
   forallb has_fields [sky_row] = true /\ has_fields textless_row = false) /\
  ended (process_csv class_name fs (lit "key") script)
  = Raised (KeyError (VStr (lit "text"))) /\
  written (trace (process_csv class_name fs (lit "key") script)) = None.
Proof.
  intros fs script; split; [repeat split|].
  destruct (missing_column_aborts class_name fs (lit "key") script
              [sky_row] textless_row (reader_of [sky_row]))
    as (_ & _ & Hw & _ & He); try reflexivity.
  split; [apply He; vm_compute; lia|exact Hw].
Defined.

(** * Further properties *)

(** ** The rows of the loop *)

(** X1.  When the loop returns, it has read the whole file, and each row
    has given one record, or two when the classification of its record
    could not be printed (the record, then the ERROR record of the [print]
    that raised): there are at least as many records as rows and at most
    twice as many; there are exactly as many if and only if the
    classification of every record can be printed, and then the [k]-th
    record is the record of the [k]-th row. *)
Theorem records_count_the_rows (str_exn : exn -> str) (api_key : str)
  (f : reader) (results : list record) (script : list outcome)
  (results' : list record) :
  ended (for_row_in_reader str_exn f api_key results script)
  = Returned results' ->
  exists rws recs,
    f = reader_of rws /\ results' = results ++ recs /\
    (length rws <= length recs <= 2 * length rws)%nat /\
    (length recs = length rws <-> forallb printable recs = true) /\
    (forallb printable recs = true -> records_of rws recs).
Proof.
  intros H.
  destruct (loop_returned _ _ _ _ _ H)
    as (rws & recs & Hf & E & _ & Hlen & Hrecs & Hp).
  exists rws, recs.
  split; [exact Hf|split; [exact E|split; [exact Hlen|split; [|exact Hrecs]]]].
  split; [exact Hp|].
  intros Hall; destruct (Hrecs Hall) as [Hl _]; exact Hl.
Qed.

Lemma records_count_the_rows_witness :
  let rws := [sky_row; sky_row] in
  let script := [Returns (ok_response surrogate_body);
                 Returns (ok_response sky_body)] in
  let recs := [{| id := VStr (lit "1");
                  original_text := VStr (lit "The sky is blue.");
                  classification := VStr [55296%N];
                  transformed_text := VStr (lit "x") |};
               error_record class_name (VStr (lit "1"))
                 (VStr (lit "The sky is blue."))
                 (UnicodeEncodeError [55296%N]);
               sky_record] in
  ended (for_row_in_reader class_name (reader_of rws) (lit "key") [] script)
  = Returned recs /\
  (length rws <= length recs <= 2 * length rws)%nat /\
  forallb printable recs = false.
Proof.
  intros rws script recs.
  assert (Hl : ended (for_row_in_reader class_name (reader_of rws) (lit "key")
                        [] script) = Returned recs) by reflexivity.
  destruct (records_count_the_rows class_name (lit "key") _ [] script Hl)
    as (rws' & recs' & Hf & E & Hlen & [_ Hp] & _).
  apply reader_of_inj in Hf; subst rws'.
  cbn [app] in E; subst recs'.
  split; [exact Hl|split; [exact Hlen|]].
  destruct (forallb printable recs) eqn:P; [|reflexivity].
  specialize (Hp eq_refl); discriminate Hp.
Defined.

(** X7.  The loop over rows followed by a reader [f] is the loop over these
    rows and then, when it returns, the loop over [f], from the results and
    the script that the first loop leaves; when the first loop raises or
    waits, so does the whole. *)
Theorem loop_in_sequence (str_exn : exn -> str) (api_key : str) (f : reader)
  (rws : list dict) : forall (results : list record) (script : list outcome),
  for_row_in_reader str_exn (rows_then rws f) api_key results script
  = let first :=
      for_row_in_reader str_exn (reader_of rws) api_key results script in
    match ended first with
    | Returned results1 =>
        later (trace first)
              (for_row_in_reader str_exn f api_key results1 (rest first))
    | Raised e =>
        {| ended := Raised e; rest := rest first; trace := trace first |}
    | Blocked =>
        {| ended := Blocked; rest := rest first; trace := trace first |}
    end.
Proof.
  induction rws as [|row rws IH]; intros results script.
  - cbn; now rewrite later_nil.
  - unfold reader_of; cbn [rows_then].
    destruct (dict_get row (lit "text")) as [text|] eqn:Htext;
      [|cbn [for_row_in_reader getitem_str]; rewrite Htext; reflexivity].
    destruct (dict_get row (lit "id")) as [row_id|] eqn:Hid;
      [|cbn [for_row_in_reader getitem_str]; rewrite Htext, Hid; reflexivity].
    rewrite !(loop_row str_exn api_key _ _ _ _ Hid Htext).
    destruct (row_records _ _ _ _) as [[g l]|]; [|reflexivity].
    rewrite IH; fold (reader_of rws); cbn [later ended rest trace].
    destruct (ended (for_row_in_reader str_exn (reader_of rws) _ _ _));
      cbn [later ended rest trace]; try reflexivity.
    now rewrite later_later.
Qed.

(** ** What a run sends, prints and sleeps *)

Lemma posts_app a b : posts (a ++ b) = (posts a + posts b)%nat.
Proof. unfold posts; now rewrite filter_app, length_app. Qed.

Lemma rate_limit_lines_app a b :
  rate_limit_lines (a ++ b) = (rate_limit_lines a + rate_limit_lines b)%nat.
Proof. unfold rate_limit_lines; now rewrite filter_app, length_app. Qed.

Lemma outcome_lines_app a b :
  outcome_lines (a ++ b) = (outcome_lines a + outcome_lines b)%nat.
Proof. unfold outcome_lines; now rewrite filter_app, length_app. Qed.

Lemma slept_app a b : slept (a ++ b) = (slept a + slept b)%Z.
Proof.
  unfold slept; induction a as [|ev a IH]; simpl; [reflexivity|].
  rewrite IH; destruct ev; lia.
Qed.

Lemma announced_app a b : announced (a ++ b) = announced a ++ announced b.
Proof. unfold announced; apply flat_map_app. Qed.

Lemma call_trace_retry rq k evs :
  call_trace rq evs -> call_trace rq (retry_events rq k ++ evs).
Proof.
  intros [H1 H2 H3 H4 H5]; split.
  - rewrite posts_app, rate_limit_lines_app, H1; reflexivity.
  - rewrite slept_app, rate_limit_lines_app, H2.
    change (slept (retry_events rq k)) with 15%Z.
    change (rate_limit_lines (retry_events rq k)) with 1%nat; lia.
  - now rewrite outcome_lines_app, H3.
  - now rewrite announced_app, H4.
  - intros rq' [E|[E|[E|Hin]]]; try discriminate; auto.
    now injection E.
Qed.

Lemma call_trace_last rq : call_trace rq [Post rq].
Proof.
  split; try reflexivity.
  intros rq' [E|[]]; now injection E.
Qed.

Lemma attempts_trace rq script : forall k,
  let r := attempts rq k script in
  call_trace rq (trace r) /\
  (ended r <> Blocked ->
   length script = (length (rest r) + posts (trace r))%nat) /\
  (ended r = Blocked -> posts (trace r) = S (length script)).
Proof.
  induction script as [|o script IH]; intros k.
  - cbn; repeat split; auto using call_trace_last; try congruence.
    intros rq' [E|[]]; now injection E.
  - destruct (is_rate_limit o) eqn:E.
    + cbv zeta; rewrite attempts_rate_limit by assumption.
      destruct (IH (S k)) as (Ht & Hr & Hb); cbn [later ended rest trace].
      split; [now apply call_trace_retry|].
      rewrite posts_app; change (posts (retry_events rq (S k))) with 1%nat.
      split; intros H; cbn [length]; [rewrite (Hr H)|rewrite (Hb H)]; lia.
    + cbv zeta; rewrite attempts_answer by assumption.
      cbn [ended rest trace]; split; [apply call_trace_last|].
      split; [intros _; cbn; lia|].
      intros H; exfalso; exact (answer_not_blocked _ H).
Qed.

Lemma row_records_line str_exn row_id text e recs l :
  row_records str_exn row_id text e = Some (recs, l) ->
  is_outcome_line (Print l) = true.
Proof.
  destruct e as [result|x|]; simpl; try discriminate.
  - destruct (success_record row_id text result) as [x|r];
      [intros [= _ <-]; reflexivity|].
    destruct (write_text (classification r)); intros [= _ <-]; reflexivity.
  - intros [= _ <-]; reflexivity.
Qed.

Lemma loop_trace_nil api_key rws : loop_trace api_key rws [].
Proof. split; try reflexivity. intros rq []. Qed.

Lemma loop_trace_row api_key row rws row_id text evs l evs' :
  dict_get row (lit "text") = Some text ->
  call_trace {| req_text := text; req_api_key := api_key |} evs ->
  is_outcome_line (Print l) = true ->
  loop_trace api_key rws evs' ->
  loop_trace api_key (row :: rws)
    ((Print (ProcessingID row_id) :: evs ++ [Print l]) ++ evs').
Proof.
  intros Htext [H1 H2 H3 H4 H5] Hl [G1 G2 G3].
  change (Print (ProcessingID row_id) :: evs ++ [Print l])
    with ([Print (ProcessingID row_id)] ++ evs ++ [Print l]).
  split.
  - rewrite !posts_app, !announced_app, !length_app, !rate_limit_lines_app.
    rewrite H1, H4, G1; destruct l; try discriminate; cbn; lia.
  - rewrite !slept_app, !rate_limit_lines_app, H2, G2.
    destruct l; try discriminate;
      cbn [slept fold_right rate_limit_lines filter is_rate_limit_line
           length]; lia.
  - intros rq Hin.
    rewrite <- !app_assoc in Hin; cbn [app] in Hin.
    destruct Hin as [E|Hin]; [discriminate|].
    apply in_app_or in Hin as [Hin|Hin].
    + rewrite (H5 _ Hin); cbn; split; [reflexivity|].
      exists row; split; [now left|assumption].
    + destruct Hin as [E|Hin]; [discriminate|].
      destruct (G3 _ Hin) as (Hk & row' & Hrow & Ht).
      split; [assumption|]; exists row'; split; [now right|assumption].
Qed.

Lemma process_text_trace text api_key script :
  let call := process_text text api_key script in
  call_trace {| req_text := text; req_api_key := api_key |} (trace call) /\
  (ended call <> Blocked ->
   length script = (length (rest call) + posts (trace call))%nat) /\
  (ended call = Blocked -> posts (trace call) = S (length script)).
Proof. apply attempts_trace. Qed.

Lemma row_records_blocked str_exn row_id text e :
  row_records str_exn row_id text e = None -> e = Blocked.
Proof.
  destruct e as [result|x|]; simpl; try discriminate; auto.
  destruct (success_record row_id text result) as [x|r]; [discriminate|].
  destruct (write_text (classification r)); discriminate.
Qed.

Lemma row_records_not_blocked str_exn row_id text e recs l :
  row_records str_exn row_id text e = Some (recs, l) -> e <> Blocked.
Proof. intros H ->; discriminate. Qed.

Section Accounting.

Variable str_exn : exn -> str.
Variable api_key : str.

Ltac trivial_run :=
  cbn [ended rest trace reader_rows];
  split; [apply loop_trace_nil|];
  split; [intros _; split; [cbn; lia|reflexivity]|discriminate].

Lemma loop_accounting f : forall results script,
  let r := for_row_in_reader str_exn f api_key results script in
  loop_trace api_key (reader_rows f) (trace r) /\
  (ended r <> Blocked ->
   length script = (length (rest r) + posts (trace r))%nat /\
   outcome_lines (trace r) = length (announced (trace r))) /\
  (ended r = Blocked ->
   S (outcome_lines (trace r)) = length (announced (trace r))).
Proof.
  induction f as [|row more IH|e]; intros results script; cbv zeta.
  - cbn [for_row_in_reader]; trivial_run.
  - destruct (dict_get row (lit "text")) as [text|] eqn:Htext;
      [|cbn [for_row_in_reader getitem_str]; rewrite Htext; unfold raise;
        trivial_run].
    destruct (dict_get row (lit "id")) as [row_id|] eqn:Hid;
      [|cbn [for_row_in_reader getitem_str]; rewrite Htext, Hid;
        unfold raise, ret; trivial_run].
    rewrite (loop_row str_exn api_key _ _ _ _ Hid Htext).
    destruct (process_text_trace text api_key script) as (Hc & Hcr & Hcb).
    destruct (row_records _ _ _ _) as [[g l]|] eqn:E.
    + pose proof E as Hl; apply row_records_line in Hl.
      pose proof E as Hnb; apply row_records_not_blocked in Hnb.
      destruct (IH (results ++ g) (rest (process_text text api_key script)))
        as (Ht & Hr & Hb).
      cbn [later ended rest trace reader_rows].
      split; [eapply loop_trace_row; eassumption|].
      change (Print (ProcessingID row_id)
              :: trace (process_text text api_key script) ++ [Print l])
        with ([Print (ProcessingID row_id)]
              ++ trace (process_text text api_key script) ++ [Print l]).
      rewrite !posts_app, !outcome_lines_app, !announced_app, !length_app.
      destruct Hc as [H1 H2 H3 H4 H5]; rewrite H3, H4.
      assert (outcome_lines [Print l] = 1%nat /\ announced [Print l] = []
              /\ posts [Print l] = 0%nat) as (-> & -> & ->)
        by (destruct l; try discriminate; repeat split).
      cbn [posts outcome_lines announced flat_map filter is_post
           is_outcome_line length app].
      split; intros H.
      * destruct (Hr H) as [Hr1 Hr2]; rewrite (Hcr Hnb), Hr1, Hr2; lia.
      * rewrite <- (Hb H); lia.
    + apply row_records_blocked in E.
      cbn [ended rest trace reader_rows]; split; [|split].
      * destruct Hc as [H1 H2 H3 H4 H5]; split.
        -- change (Print (ProcessingID row_id)
                   :: trace (process_text text api_key script))
             with ([Print (ProcessingID row_id)]
                   ++ trace (process_text text api_key script)).
           rewrite posts_app, announced_app, rate_limit_lines_app, H1, H4.
           cbn; lia.
        -- change (Print (ProcessingID row_id)
                   :: trace (process_text text api_key script))
             with ([Print (ProcessingID row_id)]
                   ++ trace (process_text text api_key script)).
           rewrite slept_app, rate_limit_lines_app, H2.
           cbn [slept fold_right rate_limit_lines filter is_rate_limit_line
                length]; lia.
        -- intros rq [E'|Hin]; [discriminate|].
           rewrite (H5 _ Hin); cbn; split; [reflexivity|].
           exists row; split; [now left|assumption].
      * intros H; congruence.
      * intros _.
        change (Print (ProcessingID row_id)
                :: trace (process_text text api_key script))
          with ([Print (ProcessingID row_id)]
                ++ trace (process_text text api_key script)).
        destruct Hc as [H1 H2 H3 H4 H5].
        rewrite outcome_lines_app, announced_app, H3, H4; reflexivity.
  - cbn [for_row_in_reader]; trivial_run.
Qed.

(** The identifiers announced by a loop that returns are those of the
    records it has appended, when the classification of each of them could
    be printed. *)
Lemma loop_announced f : forall results script results',
  ended (for_row_in_reader str_exn f api_key results script)
  = Returned results' ->
  exists recs,
    results' = results ++ recs /\
    (forallb printable recs = true ->
     announced (trace (for_row_in_reader str_exn f api_key results script))
     = map id recs).
Proof.
  induction f as [|row more IH|e]; intros results script results'.
  - simpl; intros [= <-]; exists []; now rewrite app_nil_r.
  - destruct (dict_get row (lit "text")) as [text|] eqn:Htext;
      [|cbn [for_row_in_reader getitem_str]; rewrite Htext; discriminate].
    destruct (dict_get row (lit "id")) as [row_id|] eqn:Hid;
      [|cbn [for_row_in_reader getitem_str]; rewrite Htext, Hid;
        discriminate].
    rewrite (loop_row str_exn api_key _ _ _ _ Hid Htext).
    destruct (row_records _ _ _ _) as [[g l]|] eqn:E; [|discriminate].
    cbn [later ended trace]; intros H.
    destruct (IH _ _ _ H) as (recs & -> & Ha).
    pose proof E as Hl; apply row_records_line in Hl.
    destruct (process_text_trace text api_key script) as ([_ _ _ H4 _] & _).
    exists (g ++ recs); rewrite <- app_assoc; split; [reflexivity|].
    rewrite forallb_app; intros Hp; apply andb_true_iff in Hp as [Hg Hp].
    destruct (@row_records_shape _ _ _ _ _ _ E)
      as (r & E1 & _ & [[-> _]|(x & -> & Hr)]);
      [|cbn [forallb] in Hg; rewrite Hr in Hg; discriminate].
    change (Print (ProcessingID row_id)
            :: trace (process_text text api_key script) ++ [Print l])
      with ([Print (ProcessingID row_id)]
            ++ trace (process_text text api_key script) ++ [Print l]).
    rewrite !announced_app, H4, (Ha Hp).
    destruct l; try discriminate; cbn; now rewrite E1.
  - discriminate.
Qed.

End Accounting.

(** X8.  In every run of [process_csv]: the number of requests sent is the
    number of rows announced plus the number of rate limits met; the time
    slept is 15 seconds for each rate limit met; every request carries the
    key given to [process_csv] and the text of a row of the input; and
    unless the run is waiting for the service, each request sent has
    consumed one outcome of the service. *)
Theorem requests_are_accounted_for (str_exn : exn -> str) (fs : files)
  (api_key : str) (script : list outcome) :
  let run := process_csv str_exn fs api_key script in
  posts (trace run)
  = (length (announced (trace run)) + rate_limit_lines (trace run))%nat /\
  slept (trace run) = (15 * Z.of_nat (rate_limit_lines (trace run)))%Z /\
  (forall rq, In (Post rq) (trace run) ->
     req_api_key rq = api_key /\
     exists f row,
       input_file fs = inr f /\ In row (reader_rows f) /\
       dict_get row (lit "text") = Some (req_text rq)) /\
  (ended run <> Blocked ->
   length script = (length (rest run) + posts (trace run))%nat).
Proof.
  intros run; subst run; unfold process_csv.
  destruct (input_file fs) as [e|f] eqn:Ef.
  - cbn; repeat split; auto; contradiction.
  - destruct (loop_accounting str_exn api_key f [] script)
      as ([H1 H2 H3] & Hr & _).
    assert (G : forall rq,
      In (Post rq) (trace (for_row_in_reader str_exn f api_key [] script)) ->
      req_api_key rq = api_key /\
      exists f0 row, (inr f : res reader) = inr f0 /\
                     In row (reader_rows f0) /\
                     dict_get row (lit "text") = Some (req_text rq)).
    { intros rq Hin; destruct (H3 _ Hin) as (Hk & row & Hrow & Ht).
      split; [assumption|]; exists f, row; auto. }
    destruct (ended (for_row_in_reader str_exn f api_key [] script)) eqn:E;
      cbn [ended rest trace].
    + assert (Hnb : Returned a <> Blocked) by discriminate.
      destruct (Hr Hnb) as [Hlen _].
      destruct (output_file_error fs); cbn [ended rest trace].
      * split; [exact H1|split; [exact H2|split; [exact G|auto]]].
      * destruct (writerows a) as [rows [e|]]; cbn [ended rest trace];
          rewrite posts_app, announced_app, rate_limit_lines_app, slept_app,
            length_app, H1, H2;
          cbn [posts announced rate_limit_lines slept fold_right flat_map
               filter is_post is_rate_limit_line length app];
          (split; [lia|split; [lia|split; [|lia]]]);
          intros rq Hin; apply in_app_or in Hin as [Hin|Hin]; auto;
          simpl in Hin; intuition discriminate.
    + assert (Hnb : @Raised (list record) e <> Blocked) by discriminate.
      destruct (Hr Hnb) as [Hlen _].
      split; [exact H1|split; [exact H2|split; [exact G|auto]]].
    + split; [exact H1|split; [exact H2|split; [exact G|congruence]]].
Qed.

Lemma requests_are_accounted_for_witness :
  let fs := {| input_file := inr (reader_of [sky_row; sky_row]);
               output_file_error := None |} in
  let script := [Returns too_many_requests; Returns (ok_response sky_body);
                 Returns too_many_requests; Returns too_many_requests;
                 Returns server_error; Returns server_error] in
  let run := process_csv class_name fs (lit "key") script in
  ended run = Returned tt /\
  posts (trace run) = 5%nat /\
  length (announced (trace run)) = 2%nat /\
  rate_limit_lines (trace run) = 3%nat /\
  slept (trace run) = 45%Z /\
  length (rest run) = 1%nat.
Proof.
  intros fs script run.
  destruct (requests_are_accounted_for class_name fs (lit "key") script)
    as (Hp & Hs & _ & Hr).
  fold run in Hp, Hs, Hr.
  assert (Ha : length (announced (trace run)) = 2%nat) by reflexivity.
  assert (Hl : rate_limit_lines (trace run) = 3%nat) by reflexivity.
  assert (He : ended run = Returned tt) by reflexivity.
  rewrite Ha, Hl in Hp; rewrite Hl in Hs.
  assert (Hnb : ended run <> Blocked) by (rewrite He; discriminate).
  specialize (Hr Hnb); rewrite Hp in Hr; cbn [length script] in Hr.
  repeat split; auto; lia.
Defined.

(** X9.  When [process_csv] returns, the identifiers that the lines
    [Processing ID ...] announce are, in the same order, those of the
    records written; there is exactly one line telling the outcome for each
    of them; and the run ends with the writing of the file and the
    completion line. *)
Theorem progress_lines_follow_the_rows (str_exn : exn -> str) (fs : files)
  (api_key : str) (script : list outcome) :
  let run := process_csv str_exn fs api_key script in
  ended run = Returned tt ->
  exists recs tr,
    trace run = tr ++ [WriteOutput (output_table recs); Print Complete] /\
    written (trace run) = Some (output_table recs) /\
    announced (trace run) = map id recs /\
    outcome_lines (trace run) = length recs.
Proof.
  intros run Hr; subst run.
  destruct (process_csv_returned _ _ _ _ Hr)
    as (f & results & Hf & Hl & Hw & Htr).
  destruct (loop_announced str_exn api_key f [] script Hl)
    as (recs & E & Ha); cbn [app] in E; subst results.
  specialize (Ha (forallb_writable_printable _ Hw)).
  destruct (loop_accounting str_exn api_key f [] script) as (_ & Hnb & _).
  destruct Hnb as [_ Ho]; [rewrite Hl; discriminate|].
  exists recs; eexists; split; [exact Htr|].
  rewrite Htr, written_app, announced_app, outcome_lines_app, Ha, Ho, Ha.
  cbn; rewrite app_nil_r, length_map; repeat split; lia.
Qed.

Lemma progress_lines_follow_the_rows_witness :
  let fs := {| input_file := inr (reader_of [sky_row; sky_row]);
               output_file_error := None |} in
  let script := [Returns (ok_response prose_body);
                 Returns (ok_response sky_body)] in
  let run := process_csv class_name fs (lit "key") script in
  ended run = Returned tt /\
  exists recs tr,
    trace run = tr ++ [WriteOutput (output_table recs); Print Complete] /\
    written (trace run) = Some (output_table recs) /\
    announced (trace run) = map id recs /\
    outcome_lines (trace run) = length recs.
Proof.
  intros fs script run; split; [reflexivity|].
  apply (progress_lines_follow_the_rows class_name fs (lit "key") script).
  reflexivity.
Defined.

(** ** The output file and the end of the run *)

(** X10.  The output file is opened when the loop is over.  When opening it
    raises [e], the run has sent the same requests, printed the same lines
    and consumed the same outcomes as a run that can open it, up to the
    writing; then it raises [e]: nothing is written and the records are
    lost.  A run whose loop does not return is the same whether the output
    file can be opened or not. *)
Theorem output_failure_comes_last (str_exn : exn -> str) (f : reader)
  (e : exn) (api_key : str) (script : list outcome) :
  let loop := for_row_in_reader str_exn f api_key [] script in
  let ok := process_csv str_exn
              {| input_file := inr f; output_file_error := None |}
              api_key script in
  let ko := process_csv str_exn
              {| input_file := inr f; output_file_error := Some e |}
              api_key script in
  written (trace ko) = None /\
  rest ko = rest ok /\
  trace ko = trace loop /\
  (forall results, ended loop = Returned results ->
     ended ko = Raised e /\
     exists t,
       written (trace ok) = Some t /\
       (trace ok = trace ko ++ [WriteOutput t; Print Complete] \/
        trace ok = trace ko ++ [WriteOutput t])) /\
  ((forall results, ended loop <> Returned results) -> ko = ok).
Proof.
  intros loop ok ko; subst loop ok ko; unfold process_csv; cbn [input_file
    output_file_error].
  pose proof (loop_unwritten str_exn api_key f [] script) as Hw.
  destruct (ended (for_row_in_reader str_exn f api_key [] script))
    as [results|x|]; cbn [ended rest trace].
  - destruct (writerows results) as [rows [x|]]; cbn [ended rest trace];
      (split; [exact Hw|split; [reflexivity|split; [reflexivity|split]]]).
    + intros _ _; split; [reflexivity|]; eexists.
      rewrite written_app; cbn; eauto.
    + intros H; exfalso; exact (H results eq_refl).
    + intros _ _; split; [reflexivity|]; eexists.
      rewrite written_app; cbn; eauto.
    + intros H; exfalso; exact (H results eq_refl).
  - split; [exact Hw|split; [reflexivity|split; [reflexivity|split]]];
      [discriminate|reflexivity].
  - split; [exact Hw|split; [reflexivity|split; [reflexivity|split]]];
      [discriminate|reflexivity].
Qed.

Lemma output_failure_comes_last_witness :
  let f := reader_of [sky_row] in
  let e := OSError (lit "Permission denied") in
  let script := [Returns too_many_requests; Returns (ok_response sky_body)] in
  let rq := {| req_text := VStr (lit "The sky is blue.");
               req_api_key := lit "key" |} in
  ended (for_row_in_reader class_name f (lit "key") [] script)
  = Returned [sky_record] /\
  ended (process_csv class_name
           {| input_file := inr f; output_file_error := Some e |}
           (lit "key") script) = Raised e /\
  trace (process_csv class_name
           {| input_file := inr f; output_file_error := Some e |}
           (lit "key") script)
  = [Print (ProcessingID (VStr (lit "1")));
     Post rq; Print (RateLimitHit 1); Sleep 15; Post rq;
     Print (Classification (VStr (lit "fact")))].
Proof.
  intros f e script rq.
  destruct (output_failure_comes_last class_name f e (lit "key") script)
    as (_ & _ & Ht & H & _).
  assert (Hl : ended (for_row_in_reader class_name f (lit "key") [] script)
               = Returned [sky_record]) by reflexivity.
  split; [exact Hl|].
  destruct (H _ Hl) as [He _].
  split; [exact He|rewrite Ht; reflexivity].
Defined.

Lemma answers_zero script :
  answers script = 0%nat -> forallb is_rate_limit script = true.
Proof.
  unfold answers; induction script as [|o script IH]; simpl; auto.
  destruct (is_rate_limit o); simpl; auto; discriminate.
Qed.

Lemma loop_blocked str_exn api_key rws : forall results script,
  forallb has_fields rws = true ->
  (answers script < length rws)%nat ->
  ended (for_row_in_reader str_exn (reader_of rws) api_key results script)
  = Blocked.
Proof.
  induction rws as [|row rws IH]; intros results script Hf Hn;
    [simpl in Hn; lia|].
  simpl in Hf; apply andb_true_iff in Hf as [Hrow Hf]; simpl in Hn.
  destruct (has_fields_get _ Hrow) as (row_id & text & Hid & Htext).
  unfold reader_of; cbn [rows_then].
  rewrite (loop_row str_exn api_key _ _ _ _ Hid Htext).
  destruct (Nat.eq_dec (answers script) 0) as [Hz|Hz].
  - unfold process_text.
    rewrite (attempts_blocked _ _ 0 (answers_zero _ Hz)); reflexivity.
  - destruct (@process_text_answered text api_key script) as [Hb Ha]; [lia|].
    destruct (row_records_some str_exn row_id text Hb) as (g & l & E).
    rewrite E; cbn [later ended]; apply IH; [assumption|lia].
Qed.

(** X11.  On a table whose rows all have both columns, with an output file
    that can be opened: [process_csv] is still waiting in the retry loop of
    some row exactly when the service gives fewer outcomes that are not rate
    limits than there are rows ([process_text] sets no bound on the retries
    and [process_csv] none on the time); otherwise the loop returns, and
    [process_csv] returns exactly when every cell of the records can be
    encoded as UTF-8: when one cannot, the writer raises. *)
Theorem batch_returns_when_answered (str_exn : exn -> str)
  (rws : list dict) (api_key : str) (script : list outcome) :
  forallb has_fields rws = true ->
  let loop := for_row_in_reader str_exn (reader_of rws) api_key [] script in
  let run :=
    process_csv str_exn
      {| input_file := inr (reader_of rws); output_file_error := None |}
      api_key script in
  (ended run = Blocked <-> (answers script < length rws)%nat) /\
  ((length rws <= answers script)%nat ->
   exists results,
     ended loop = Returned results /\
     (ended run = Returned tt <-> forallb writable results = true) /\
     (forallb writable results = false ->
      exists s, ended run = Raised (UnicodeEncodeError s))).
Proof.
  intros Hf loop run; subst loop run.
  assert (Hok : (length rws <= answers script)%nat ->
    exists results,
      ended (for_row_in_reader str_exn (reader_of rws) api_key [] script)
      = Returned results /\
      (ended (process_csv str_exn
                {| input_file := inr (reader_of rws);
                   output_file_error := None |} api_key script) = Returned tt
       <-> forallb writable results = true) /\
      (forallb writable results = false ->
       exists s,
         ended (process_csv str_exn
                  {| input_file := inr (reader_of rws);
                     output_file_error := None |} api_key script)
         = Raised (UnicodeEncodeError s))).
  { intros Hn.
    destruct (loop_prefix str_exn api_key Eof rws [] script Hf Hn)
      as (recs & script' & tr & E & _).
    fold (reader_of rws) in E; cbn [app for_row_in_reader] in E.
    assert (Hl : ended (for_row_in_reader str_exn (reader_of rws) api_key []
                          script) = Returned recs) by now rewrite E.
    exists recs; split; [exact Hl|].
    destruct (@process_csv_writes str_exn
                {| input_file := inr (reader_of rws);
                   output_file_error := None |} api_key script
                (reader_of rws) recs eq_refl eq_refl Hl)
      as (done & todo & Er & Hd & [[-> H]|(r & todo' & s & -> & Hw & H)]);
      rewrite H; cbn [ended].
    - rewrite app_nil_r in Er; subst done; rewrite Hd.
      split; [split; auto|discriminate].
    - assert (Hr : forallb writable recs = false).
      { subst recs; rewrite forallb_app; cbn [forallb].
        pose proof (write_cells_encodes (cells r)) as He; rewrite Hw in He.
        unfold writable at 2; rewrite He; apply andb_false_r. }
      rewrite Hr; split; [split; discriminate|eauto]. }
  assert (Hko : (answers script < length rws)%nat ->
    ended (process_csv str_exn
             {| input_file := inr (reader_of rws);
                output_file_error := None |} api_key script) = Blocked).
  { intros Hn; unfold process_csv; cbn [input_file].
    now rewrite (loop_blocked str_exn api_key rws [] script Hf Hn). }
  split; [split; [|exact Hko]|exact Hok].
  intros H.
  destruct (Nat.le_gt_cases (length rws) (answers script)) as [Hn|Hn];
    [|assumption].
  destruct (Hok Hn) as (results & Hl & _).
  unfold process_csv in H; cbn [input_file output_file_error] in H.
  rewrite Hl in H.
  destruct (writerows results) as [rows [x|]]; discriminate.
Qed.

Lemma batch_returns_when_answered_witness :
  let rws := [sky_row; sky_row] in
  let files := {| input_file := inr (reader_of rws);
                  output_file_error := None |} in
  let waiting := [Returns (ok_response sky_body); Returns too_many_requests;
                  Returns too_many_requests] in
  let answered := [Returns (ok_response sky_body);
                   Returns (ok_response unwritable_body)] in
  (forallb has_fields rws = true /\
   (answers waiting < length rws)%nat /\
   (length rws <= answers answered)%nat) /\
  ended (process_csv class_name files (lit "key") waiting) = Blocked /\
  ended (for_row_in_reader class_name (reader_of rws) (lit "key") [] answered)
  = Returned [sky_record; unwritable_record] /\
  exists s, ended (process_csv class_name files (lit "key") answered)
            = Raised (UnicodeEncodeError s).
Proof.
  intros rws files waiting answered.
  assert (Hw : (answers waiting < length rws)%nat) by (vm_compute; lia).
  assert (Ha : (length rws <= answers answered)%nat) by (vm_compute; lia).
  split; [split; [reflexivity|split; [exact Hw|exact Ha]]|].
  split.
  - destruct (batch_returns_when_answered class_name rws (lit "key") waiting
                eq_refl) as [[_ H] _].
    exact (H Hw).
  - destruct (batch_returns_when_answered class_name rws (lit "key") answered
                eq_refl) as [_ H].
    destruct (H Ha) as (results & Hl & _ & Hr).
    assert (E : ended (for_row_in_reader class_name (reader_of rws) (lit "key")
                         [] answered)
                = Returned [sky_record; unwritable_record]) by reflexivity.
    split; [exact E|].
    rewrite E in Hl; injection Hl as <-.
    apply Hr; reflexivity.
Defined.

(** ** The shape of a reply *)

Lemma decode_non_string (v : value) :
  (forall p, v <> VStr p) ->
  exists e,
    decode v = inl e /\
    (e = TypeError Contains v \/ e = TypeError Loads v \/
     e = AttributeError v (lit "split")).
Proof.
  intros Hv; unfold decode, clean, strip_fence.
  destruct v; cbn [contains bind ret raise method_split json_loads];
    try (eexists; split; [reflexivity|auto]).
  - exfalso; exact (Hv s eq_refl).
  - destruct (existsb (is_str fence_json) l);
      [|destruct (existsb (is_str fence) l)];
      cbn [bind ret raise json_loads];
      eexists; (split; [reflexivity|auto]).
  - destruct (existsb (fun kv => str_eqb fence_json (fst kv)) d);
      [|destruct (existsb (fun kv => str_eqb fence (fst kv)) d)];
      cbn [bind ret raise json_loads];
      eexists; (split; [reflexivity|auto]).
Qed.

(** X3.  When the text of the reply is not a string, lines 60 to 65 raise
    and return nothing: a [TypeError] from the test [in] or from
    [json.loads], or an [AttributeError] from [split] when the value is a
    list or a dict that holds the marker. *)
Theorem non_string_payload_raises (v : value) :
  (forall p, v <> VStr p) ->
  exists e,
    decode v = inl e /\
    (e = TypeError Contains v \/ e = TypeError Loads v \/
     e = AttributeError v (lit "split")).
Proof. apply decode_non_string. Qed.

Lemma non_string_payload_raises_witness :
  (forall p, VList [VStr fence_json] <> VStr p) /\
  decode (VList [VStr fence_json])
  = inl (AttributeError (VList [VStr fence_json]) (lit "split")) /\
  decode (VInt 3) = inl (TypeError Contains (VInt 3)) /\
  decode (VDict []) = inl (TypeError Loads (VDict [])).
Proof.
  split; [discriminate|].
  destruct (@non_string_payload_raises (VList [VStr fence_json]))
    as (e & He & _); [discriminate|].
  repeat split.
Defined.

Lemma decode_returns_on_str v result :
  decode v = inr result ->
  exists p, v = VStr p /\ Json.loads (extracted p) = inr result.
Proof.
  intros H; destruct v as [|b|z|lexeme|p|l|d];
    try (exfalso;
         match type of H with
         | decode ?x = _ =>
             destruct (@decode_non_string x) as (e & He & _);
             [discriminate|rewrite He in H; discriminate]
         end).
  exists p; split; [reflexivity|]; now rewrite <- decode_str.
Qed.

Lemma seq_index_0_inv {A} (l : list A) x :
  seq_index l 0 = Some x -> exists l', l = x :: l'.
Proof.
  destruct l as [|y l']; [discriminate|].
  rewrite seq_index_0; intros [= ->]; eauto.
Qed.

Lemma getitem_str_inv v key x :
  getitem_str v key = inr x -> exists d, v = VDict d /\ dict_get d key = Some x.
Proof.
  destruct v; simpl; try discriminate.
  destruct (dict_get d key) eqn:E; [|discriminate].
  intros [= <-]; eauto.
Qed.

Lemma read_reply_shape r result :
  read_reply r = inr result <->
  is_http_error (status_code r) = false /\
  exists d d1 others p,
    Json.loads (text r) = inr (VDict d) /\
    dict_get d (lit "content") = Some (VList (VDict d1 :: others)) /\
    dict_get d1 (lit "text") = Some (VStr p) /\
    Json.loads (extracted p) = inr result.
Proof.
  unfold read_reply, raise_for_status, is_http_error, json, parse_reply,
    reply_text.
  split.
  - destruct ((400 <=? status_code r)%Z && (status_code r <? 600)%Z);
      [discriminate|]; cbn [bind ret].
    destruct (Json.loads (text r)) as [e|data]; [discriminate|]; cbn [bind].
    destruct (getitem_str data (lit "content")) as [e|content] eqn:E1;
      [discriminate|]; cbn [bind].
    destruct (getitem_int content 0) as [e|first] eqn:E2;
      [discriminate|]; cbn [bind].
    destruct (getitem_str first (lit "text")) as [e|t] eqn:E3;
      [discriminate|]; cbn [bind].
    intros H; apply decode_returns_on_str in H as (p & -> & Hp).
    apply getitem_str_inv in E1 as (d & -> & Hd).
    apply getitem_str_inv in E3 as (d1 & -> & Hd1).
    split; [reflexivity|].
    destruct content; simpl in E2; try discriminate.
    + destruct (seq_index s 0); discriminate.
    + destruct (seq_index l 0) as [x|] eqn:E0; [|discriminate].
      injection E2 as ->.
      apply seq_index_0_inv in E0 as (others & ->).
      exists d, d1, others, p; auto.
  - intros (-> & d & d1 & others & p & -> & Hd & Hd1 & Hp); cbn [bind ret].
    cbn [getitem_str]; rewrite Hd; cbn [bind ret getitem_int].
    rewrite seq_index_0; cbn [bind ret getitem_str].
    rewrite Hd1; cbn [bind ret]; now rewrite decode_str.
Qed.

(** X2.  On a response whose status is not 429, [process_text] returns a
    value exactly when the status is not an error status, the body is a
    JSON object whose [content] is a list that begins with an object whose
    [text] is a string, and the text extracted from this string is JSON;
    the value returned is the one decoded from it.  On any other body the
    call raises. *)
Theorem process_text_returns_on_shaped_replies (text : value)
  (api_key : str) (r : response) (script : list outcome) (result : value) :
  status_code r <> 429%Z ->
  (ended (process_text text api_key (Returns r :: script)) = Returned result
   <->
   is_http_error (status_code r) = false /\
   exists d d1 others p,
     Json.loads (Py.text r) = inr (VDict d) /\
     dict_get d (lit "content") = Some (VList (VDict d1 :: others)) /\
     dict_get d1 (lit "text") = Some (VStr p) /\
     Json.loads (extracted p) = inr result) /\
  ((exists v, ended (process_text text api_key (Returns r :: script))
              = Returned v) \/
   (exists e, ended (process_text text api_key (Returns r :: script))
              = Raised e)).
Proof.
  intros H429.
  assert (Ho : is_rate_limit (Returns r) = false)
    by (simpl; now apply Z.eqb_neq).
  unfold process_text; rewrite attempts_answer by assumption.
  cbn [ended answer_of]; split.
  - rewrite <- read_reply_shape.
    destruct (read_reply r); split; congruence.
  - destruct (read_reply r) as [e|v]; [right|left]; eauto.
Qed.

Lemma process_text_returns_on_shaped_replies_witness :
  let r := ok_response sky_body in
  let text := VStr (lit "The sky is blue.") in
  status_code r <> 429%Z /\
  ended (process_text text (lit "key") [Returns r]) = Returned sky_result /\
  is_http_error (status_code r) = false /\
  exists d d1 others p,
    Json.loads (Py.text r) = inr (VDict d) /\
    dict_get d (lit "content") = Some (VList (VDict d1 :: others)) /\
    dict_get d1 (lit "text") = Some (VStr p) /\
    Json.loads (extracted p) = inr sky_result.
Proof.
  intros r text.
  assert (H429 : status_code r <> 429%Z) by discriminate.
  destruct (process_text_returns_on_shaped_replies text (lit "key") r []
              sky_result H429) as [[H _] _].
  split; [exact H429|split; [reflexivity|]].
  apply H; reflexivity.
Defined.

(** ** The clean-up, again *)

Section StripFacts.

Implicit Types (p s t a b : str).

Lemma str_in_app_l p a s : str_in p s = true -> str_in p (a ++ s) = true.
Proof.
  intros H; induction a as [|x a IH]; [exact H|].
  cbn [app str_in]; rewrite IH; apply orb_true_r.
Qed.

Lemma str_in_app_r p s b : str_in p s = true -> str_in p (s ++ b) = true.
Proof.
  induction s as [|x s IH]; cbn [str_in app]; intros H;
    apply orb_true_iff in H as [H|H]; try discriminate.
  - apply (startswith_app _ _ b) in H; cbn [app] in H.
    destruct b; cbn [str_in]; now rewrite H.
  - apply (startswith_app _ _ b) in H; cbn [app] in H; now rewrite H.
  - rewrite (IH H); apply orb_true_r.
Qed.

Lemma lstrip_suffix s : exists a, s = a ++ lstrip s.
Proof.
  induction s as [|x s [a IH]]; [exists []; reflexivity|].
  simpl; destruct (isspace x); [|exists []; reflexivity].
  exists (x :: a); simpl; now rewrite <- IH.
Qed.

Lemma rstrip_prefix s : exists b, s = rstrip s ++ b.
Proof.
  unfold rstrip; destruct (lstrip_suffix (rev s)) as [a E].
  exists (rev a).
  rewrite <- rev_app_distr, <- E; now rewrite rev_involutive.
Qed.

Lemma str_in_strip p s : str_in p (strip s) = true -> str_in p s = true.
Proof.
  unfold strip; intros H.
  destruct (lstrip_suffix (rstrip s)) as [a Ea].
  destruct (rstrip_prefix s) as [b Eb].
  rewrite Eb; apply str_in_app_r; rewrite Ea; now apply str_in_app_l.
Qed.

Lemma upto_no_sep p s : p <> [] -> str_in p (upto p s) = false.
Proof.
  intros Hp; unfold upto; destruct (find p s) as [[a b]|] eqn:F.
  - rewrite str_in_find; now erewrite find_before by eauto.
  - now rewrite str_in_find, F.
Qed.

Lemma lstrip_head s x t : lstrip s = x :: t -> isspace x = false.
Proof.
  induction s as [|y s IH]; simpl; [discriminate|].
  destruct (isspace y) eqn:E; auto.
  intros [= <- _]; exact E.
Qed.

Lemma lstrip_fixed s : (forall x t, s = x :: t -> isspace x = false) ->
  lstrip s = s.
Proof.
  destruct s as [|x t]; [reflexivity|].
  intros H; simpl; now rewrite (H x t eq_refl).
Qed.

Lemma rstrip_fixed s : (forall t x, s = t ++ [x] -> isspace x = false) ->
  rstrip s = s.
Proof.
  intros H; destruct s as [|y s'] using rev_ind; [reflexivity|].
  rewrite rstrip_snoc, (H s' y eq_refl); reflexivity.
Qed.

Lemma rstrip_end s t x : rstrip s = t ++ [x] -> isspace x = false.
Proof.
  unfold rstrip; intros H.
  apply (f_equal (@rev char)) in H.
  rewrite rev_involutive, rev_app_distr in H; simpl in H.
  eapply lstrip_head; eauto.
Qed.

Lemma strip_strip s : strip (strip s) = strip s.
Proof.
  unfold strip.
  rewrite (@rstrip_fixed (lstrip (rstrip s))).
  - apply lstrip_fixed; intros x t E; eapply lstrip_head; eauto.
  - intros t x E.
    destruct (lstrip_suffix (rstrip s)) as [a Ea].
    rewrite E, app_assoc in Ea; eapply rstrip_end; eauto.
Qed.

Lemma fenced_is_clean marker p :
  str_in fence (fenced marker p) = false /\
  strip (fenced marker p) = fenced marker p.
Proof.
  unfold fenced; split; [|apply strip_strip].
  destruct (str_in fence (strip (upto fence (upto marker (after marker p)))))
    eqn:E; [|reflexivity].
  apply str_in_strip in E; rewrite upto_no_sep in E; [discriminate|].
  discriminate.
Qed.

Lemma extracted_is_clean p :
  str_in fence p = true ->
  str_in fence (extracted p) = false /\ strip (extracted p) = extracted p.
Proof.
  intros H; unfold extracted.
  destruct (str_in fence_json p); [apply fenced_is_clean|].
  rewrite H; apply fenced_is_clean.
Qed.

Lemma no_fence_no_json s : str_in fence s = false -> str_in fence_json s = false.
Proof.
  intros H; destruct (str_in fence_json s) eqn:E; [|reflexivity].
  apply (@str_in_prefix fence (lit "json")) in E; congruence.
Qed.

Lemma extracted_extracted p : extracted (extracted p) = extracted p.
Proof.
  destruct (str_in fence p) eqn:H.
  - destruct (extracted_is_clean p H) as [Hf _].
    unfold extracted at 1; now rewrite (no_fence_no_json _ Hf), Hf.
  - unfold extracted; rewrite (no_fence_no_json _ H), H.
    now rewrite (no_fence_no_json _ H), H.
Qed.

End StripFacts.

(** X4.  The clean-up of lines 60 to 63 is idempotent on strings: cleaning
    the cleaned text changes nothing.  When the payload holds a marker, the
    cleaned text holds none and has no whitespace at either end. *)
Theorem clean_is_idempotent (p : str) :
  (t <- clean (VStr p) ;; clean t) = clean (VStr p) /\
  (if str_in fence p
   then str_in fence (extracted p) = false /\
        strip (extracted p) = extracted p
   else extracted p = p).
Proof.
  split.
  - rewrite clean_str; cbn [bind ret].
    now rewrite clean_str, extracted_extracted.
  - destruct (str_in fence p) eqn:H; [now apply extracted_is_clean|].
    unfold extracted; now rewrite (no_fence_no_json _ H), H.
Qed.

(** ** Replies with prose around the fences *)

Section Prose.

Implicit Types (p s t u pre post : str).

(** No occurrence of the marker "```json" overlaps another one. *)
Lemma json_marker_no_border s rest :
  s <> [] -> startswith fence_json s = false ->
  startswith fence_json (s ++ fence_json ++ rest) = false.
Proof.
  intros Hs H.
  change fence_json with [96; 96; 96; 106; 115; 111; 110]%N in *.
  destruct s as [|a [|b [|c [|d [|e [|f [|g s]]]]]]]; [congruence|..];
    cbn [app startswith] in *; try assumption;
    repeat match goal with
           | |- context [N.eqb ?x ?y] =>
               destruct (N.eqb_spec x y); subst; cbn [andb];
               try discriminate
           end;
    reflexivity.
Qed.

Lemma find_json_marker pre rest :
  str_in fence_json pre = false ->
  find fence_json (pre ++ fence_json ++ rest) = Some (pre, rest).
Proof.
  induction pre as [|x pre IH]; intros H.
  - exact (find_here fence_json rest).
  - cbn [str_in] in H; apply orb_false_iff in H as [Hs H].
    assert (S1 : startswith fence_json ((x :: pre) ++ fence_json ++ rest)
                 = false)
      by (apply json_marker_no_border; [discriminate|assumption]).
    cbn [app] in S1; cbn [app find]; rewrite S1, (IH H); reflexivity.
Qed.

Lemma upto_cons p x s :
  startswith p (x :: s) = false -> upto p (x :: s) = x :: upto p s.
Proof.
  intros H; unfold upto; cbn [find]; rewrite H.
  destruct (find p s) as [[a b]|]; reflexivity.
Qed.

Lemma upto_prefix p s : exists b, s = upto p s ++ b.
Proof.
  unfold upto; destruct (find p s) as [[a b]|] eqn:F.
  - exists (p ++ b); now apply find_app.
  - exists []; now rewrite app_nil_r.
Qed.

(** After a content that holds no fence and does not end with a backtick,
    the text is cut at the closing fence, whatever follows, unless a
    backtick follows the fence. *)
Lemma cut_at_closing post : forall u,
  str_in fence u = false ->
  (forall u' x, u = u' ++ [x] -> ~ In x fence) ->
  startswith [96%N] post = false ->
  upto fence (upto fence_json (u ++ fence ++ post)) = u.
Proof.
  intros u; induction u as [|x u IH]; intros Hin Hend Hpost.
  - cbn [app].
    assert (Hp : startswith fence_json (96%N :: 96%N :: post) = false /\
                 startswith fence_json (96%N :: post) = false).
    { change fence_json with [96; 96; 96; 106; 115; 111; 110]%N.
      destruct post as [|y post']; [split; reflexivity|].
      cbn [startswith] in *.
      destruct (N.eqb_spec 96 y); [discriminate|split; reflexivity]. }
    destruct Hp as [Hp2 Hp1].
    change (fence ++ post) with (96%N :: 96%N :: 96%N :: post).
    destruct (startswith fence_json (96%N :: 96%N :: 96%N :: post)) eqn:E.
    + unfold upto at 2; cbn [find]; rewrite E; reflexivity.
    + rewrite (@upto_cons fence_json) by exact E.
      rewrite (@upto_cons fence_json) by exact Hp2.
      rewrite (@upto_cons fence_json) by exact Hp1.
      reflexivity.
  - destruct (exists_last (l := x :: u)) as (u' & y & E); [discriminate|].
    assert (S1 : startswith fence ((x :: u) ++ fence ++ post)
                 = startswith fence (x :: u)).
    { rewrite E; apply startswith_past_end; eapply Hend; eauto. }
    cbn [str_in] in Hin; apply orb_false_iff in Hin as [Hs Hin].
    cbn [app] in S1 |- *; rewrite Hs in S1.
    assert (S2 : startswith fence_json (x :: u ++ fence ++ post) = false).
    { destruct (startswith fence_json (x :: u ++ fence ++ post)) eqn:S;
        [|reflexivity].
      apply (@startswith_prefix fence (lit "json")) in S; congruence. }
    rewrite (@upto_cons fence_json) by exact S2.
    destruct (upto_prefix fence_json (u ++ fence ++ post)) as [b Eb].
    assert (S3 : startswith fence
                   (x :: upto fence_json (u ++ fence ++ post)) = false).
    { destruct (startswith fence
                  (x :: upto fence_json (u ++ fence ++ post))) eqn:S;
        [|reflexivity].
      apply (startswith_app _ _ b) in S; cbn [app] in S.
      rewrite <- Eb in S; congruence. }
    rewrite (@upto_cons fence) by exact S3.
    rewrite IH; auto.
    intros u1 x1 E1; apply (Hend (x :: u1)); rewrite E1; reflexivity.
Qed.

End Prose.

(** X5.  A reply in which a block, opened by "```json" and closed by
    "```", holds a JSON content without marker gives the value of this
    content, whatever text comes before the block (as long as it holds no
    "```json" marker; it may hold other fences) and whatever text comes
    after it (as long as it does not begin with a backtick). *)
Theorem fenced_reply_with_prose (c w1 w2 pre post : str) (v : value) :
  Json.loads c = inr v ->
  str_in fence c = false ->
  forallb isspace w1 = true ->
  forallb isspace w2 = true ->
  str_in fence_json pre = false ->
  startswith (lit "`") post = false ->
  decode (VStr (pre ++ wrap fence_json w1 c w2 ++ post)) = inr v.
Proof.
  intros Hv Hp H1 H2 Hpre Hpost.
  rewrite decode_str, wrap_padded.
  replace (pre ++ (fence_json ++ padded w1 c w2 ++ fence) ++ post)
    with (pre ++ fence_json ++ padded w1 c w2 ++ fence ++ post)
    by (now rewrite <- !app_assoc).
  unfold extracted, fenced.
  rewrite (str_in_app_l _ pre _ (str_in_here fence_json _)).
  unfold after; rewrite (find_json_marker _ _ Hpre).
  rewrite cut_at_closing.
  - unfold padded; rewrite strip_padding by assumption.
    now apply loads_strip.
  - eapply padded_plain; eassumption.
  - eapply padded_end; eassumption.
  - exact Hpost.
Qed.

Lemma fenced_reply_with_prose_witness :
  let c := dq "{'classification': 'fact', 'transformed_text': 'The sky.'}" in
  let v := VDict [(lit "classification", VStr (lit "fact"));
                  (lit "transformed_text", VStr (lit "The sky."))] in
  let pre := lit "Here is the JSON you asked for (in a ``` block):" in
  let post := 10%N :: lit "I kept it concise." in
  (Json.loads c = inr v /\ str_in fence c = false /\
   str_in fence_json pre = false /\ startswith (lit "`") post = false) /\
  decode (VStr (pre ++ wrap fence_json [10%N] c [10%N] ++ post)) = inr v.
Proof.
  intros c v pre post; split; [repeat split|].
  apply (fenced_reply_with_prose c [10%N] [10%N] pre post (v := v));
    reflexivity.
Defined.

(** X6.  A block that is opened and never closed (a reply cut short after
    the content) is read to the end of the payload: a JSON content without
    marker after a "```json" marker, or after a "```" marker that begins
    the payload, gives its value. *)
Theorem unclosed_fence_is_read (c w1 w2 pre : str) (v : value) :
  Json.loads c = inr v ->
  str_in fence c = false ->
  forallb isspace w1 = true ->
  forallb isspace w2 = true ->
  str_in fence_json pre = false ->
  decode (VStr (pre ++ fence_json ++ padded w1 c w2)) = inr v /\
  decode (VStr (fence ++ padded w1 c w2)) = inr v.
Proof.
  intros Hv Hp H1 H2 Hpre.
  assert (Hu : str_in fence (padded w1 c w2) = false)
    by (eapply padded_plain; eassumption).
  assert (Hs : Json.loads (strip (padded w1 c w2)) = inr v)
    by (unfold padded; rewrite strip_padding by assumption;
        now apply loads_strip).
  rewrite !decode_str; split.
  - unfold extracted, fenced.
    rewrite (str_in_app_l _ pre _ (str_in_here fence_json _)).
    unfold after.
    rewrite <- (app_nil_r (padded w1 c w2)) at 1.
    rewrite (find_json_marker _ _ Hpre).
    rewrite app_nil_r in *.
    now rewrite (find_none_upto _ _ (no_fence_no_json _ Hu)),
      (find_none_upto _ _ Hu).
  - assert (Hn : str_in fence_json (fence ++ padded w1 c w2) = false).
    { pose proof (no_fence_no_json _ Hu) as Hj.
      destruct (@padded_head c w1 w2 v) as (x & s & E & H96 & H106);
        try assumption.
      rewrite E in *.
      change fence_json with [96; 96; 96; 106; 115; 111; 110]%N in *.
      change (fence ++ x :: s) with (96 :: 96 :: 96 :: x :: s)%N.
      cbn [str_in] in *.
      apply orb_false_iff in Hj as [_ Hj]; rewrite Hj.
      cbn [startswith].
      destruct (N.eqb_spec 106 x); [congruence|].
      destruct (N.eqb_spec 96 x); [congruence|].
      reflexivity. }
    unfold extracted; rewrite Hn, str_in_here, fenced_fence, after_here.
    now rewrite (find_none_upto _ _ Hu).
Qed.

Lemma unclosed_fence_is_read_witness :
  let c := dq "{'classification': 'fact', 'transformed_text': 'The sky.'}" in
  let v := VDict [(lit "classification", VStr (lit "fact"));
                  (lit "transformed_text", VStr (lit "The sky."))] in
  (Json.loads c = inr v /\ str_in fence c = false /\
   str_in fence_json (lit "Sure: ") = false) /\
  decode (VStr (lit "Sure: " ++ fence_json ++ 10%N :: c)) = inr v /\
  decode (VStr (fence ++ 10%N :: c)) = inr v.
Proof.
  intros c v; split; [repeat split|].
  destruct (unclosed_fence_is_read c [10%N] [] (lit "Sure: ") (v := v))
    as [E1 E2]; try reflexivity.
  unfold padded in E1, E2; rewrite app_nil_r in E1, E2.
  split; [exact E1|exact E2].
Defined.
